(** * SimplifyCallExpr: the call-expression simplification pass of creduce

    A shallow embedding of [SimplifyCallExpr.cpp].  The pass selects the
    K-th call expression met by the AST visitor and replaces it by a comma
    expression of stand-ins: [0] for scalars, a fresh global temporary for
    structs and unions.

    The member functions of the C++ classes are state-passing functions on
    the record [SimplifyCallExpr]; the visitor object is the record
    [SimplifyCallExprVisitor], which carries the consumer it points to. *)

From Stdlib Require Import List String Ascii Bool Arith ZArith NArith Lia.
From Stdlib Require Import DecimalString DecimalN.
Import ListNotations.

Open Scope string_scope.
Open Scope list_scope.
Set Warnings "-register-all".

(** ** Strings *)

Module Str.

(** The one-character string holding a line feed, the ["\n"] of the source. *)
Definition nl : string := String (ascii_of_nat 10) EmptyString.

Definition comma : ascii := ","%char.

(** [stripPrefix p s] is the rest of [s] after the leading [p], when [s]
    starts with [p] ([std::string::compare(0, p.size(), p) == 0] followed by
    [substr(p.size())]). *)
Fixpoint stripPrefix (p s : string) : option string :=
  match p with
  | EmptyString => Some s
  | String a p' =>
      match s with
      | EmptyString => None
      | String b s' => if Ascii.eqb a b then stripPrefix p' s' else None
      end
  end.

(** Fields of [s] between commas; a string without comma is one field. *)
Fixpoint splitComma (s : string) : list string :=
  match s with
  | EmptyString => [EmptyString]
  | String c s' =>
      if Ascii.eqb c comma then EmptyString :: splitComma s'
      else match splitComma s' with
           | [] => [String c EmptyString]
           | f :: fs => String c f :: fs
           end
  end.

(** [s] without its last character, when that character is [c]. *)
Fixpoint stripLast (c : ascii) (s : string) : option string :=
  match s with
  | EmptyString => None
  | String a EmptyString => if Ascii.eqb a c then Some EmptyString else None
  | String a s' => option_map (String a) (stripLast c s')
  end.

(** The operands of a parenthesized comma expression [(e1,...,en)]:
    [None] when the text is not of that shape. *)
Definition commaOperands (s : string) : option (list string) :=
  match s with
  | String "("%char body => option_map splitComma (stripLast ")"%char body)
  | _ => None
  end.

Fixpoint noComma (s : string) : bool :=
  match s with
  | EmptyString => true
  | String c s' => negb (Ascii.eqb c comma) && noComma s'
  end.

End Str.

(** ** The parts of the clang AST the pass looks at *)

(** A source range, as byte offsets [rangeBegin, rangeEnd) into the main
    file. *)
Record SourceRange : Type := mkRange { rangeBegin : nat; rangeEnd : nat }.

Definition rangeSize (R : SourceRange) : nat := rangeEnd R - rangeBegin R.

(** What the predicates of [clang::Type] used by the pass can tell apart. *)
Inductive TypeClass : Type :=
| VoidTy | StructureTy | UnionTy | ClassTy
| IntegerTy | PointerTy | FloatingTy | EnumTy | OtherTy.

(** A [QualType]: its class and the way the printing policy spells it. *)
Record QualType : Type := mkQualType { typeClass : TypeClass; typeSpelling : string }.

Definition isVoidType (T : QualType) : bool :=
  match typeClass T with VoidTy => true | _ => false end.

Definition isStructureType (T : QualType) : bool :=
  match typeClass T with StructureTy => true | _ => false end.

Definition isUnionType (T : QualType) : bool :=
  match typeClass T with UnionTy => true | _ => false end.

(** [QualType::getAsStringInternal(Str, Policy)] for a type without
    declarator syntax (a tag type, the only use in the pass): the spelling
    of the type is put before the declared name held by [Str]. *)
Definition getAsStringInternal (T : QualType) (Str : string) : string :=
  match Str with
  | EmptyString => typeSpelling T
  | _ => (typeSpelling T ++ " " ++ Str)%string
  end.

Record Expr : Type := mkExpr { exprType : QualType; exprRange : SourceRange }.

(** A [CallExpr]: [getType()], [getNumArgs()]/[getArg(I)] and
    [getSourceRange()]. *)
Record CallExpr : Type := mkCallExpr {
  callType : QualType;
  callArgs : list Expr;
  callRange : SourceRange
}.

Definition getNumArgs (CE : CallExpr) : nat := List.length (callArgs CE).

Record FunctionDecl : Type := mkFunctionDecl {
  fdName : string;
  isThisDeclarationADefinition : bool;
  fdRange : SourceRange
}.

(** AST nodes as [RecursiveASTVisitor] walks them: function declarations and
    call expressions are the two kinds of node the visitor of the pass has a
    callback for; every other declaration, statement or expression is an
    [OtherNode].  The children of a function declaration are its parameters
    and body, those of a call its callee and argument expressions. *)
Inductive Node : Type :=
| FunctionDeclNode (FD : FunctionDecl) (children : list Node)
| CallExprNode (CE : CallExpr) (children : list Node)
| OtherNode (children : list Node).

(** A [DeclGroupRef]: top-level declarations handed over together. *)
Definition DeclGroupRef : Type := list Node.

(** The translation unit: the text of the main file, the declaration groups
    in the order the parser delivers them, and the declared identifiers that
    the name query scans. *)
Record TranslationUnit : Type := mkTU {
  tuSource : string;
  tuDeclGroups : list DeclGroupRef;
  tuIdentifiers : list string
}.

(** ** The rewriter *)

(** Edits are recorded against the offsets of the original buffer, the way
    [clang::Rewriter] takes them. *)
Inductive Edit : Type :=
| InsertText (Loc : nat) (Text : string)
| ReplaceText (Loc : nat) (Size : nat) (Text : string).

Definition Rewriter : Type := list Edit.

Module RewriteBuffer.

(** Modelled from the spec: the text-buffer service ([replace(byteRange,
    text)] and [insertBefore(anchor, text)] over a shared buffer tied to the
    original file; several sequential edits resolve to one final text).
    For each original offset the buffer keeps the text inserted in front of
    that byte, the replacement text that starts at it, and whether the byte
    itself was removed. *)
Record t : Type := mk {
  inserted : nat -> string;
  replacement : nat -> string;
  removed : nat -> bool
}.

Definition init : t := mk (fun _ => EmptyString) (fun _ => EmptyString) (fun _ => false).

Definition applyEdit (B : t) (E : Edit) : t :=
  match E with
  | InsertText Loc Text =>
      mk (fun i => if Nat.eqb i Loc then (inserted B i ++ Text)%string
                   else inserted B i)
         (replacement B)
         (removed B)
  | ReplaceText Loc Size Text =>
      mk (inserted B)
         (fun i => if Nat.eqb i Loc then (replacement B i ++ Text)%string
                   else replacement B i)
         (fun i => if Nat.leb Loc i && Nat.ltb i (Loc + Size) then true
                   else removed B i)
  end.

Definition applyEdits (R : Rewriter) : t := fold_left applyEdit R init.

Definition byteAt (Src : string) (i : nat) : string :=
  match String.get i Src with
  | Some c => String c EmptyString
  | None => EmptyString
  end.

(** What stands at original offset [i]: the replacement text that starts
    there, then the original byte unless it was removed. *)
Definition standing (Src : string) (B : t) (i : nat) : string :=
  (replacement B i ++ (if removed B i then EmptyString else byteAt Src i))%string.

(** The whole text after the edits (offset [length Src] holds what was
    inserted at the end of the file). *)
Definition text (Src : string) (B : t) : string :=
  String.concat EmptyString
    (map (fun i => (inserted B i ++ standing Src B i)%string)
         (seq 0 (S (String.length Src)))).

(** The text that now stands where the original bytes of [R] stood.  Text
    inserted in front of the first byte of [R] is in front of the range,
    not part of it. *)
Definition rangeText (Src : string) (B : t) (R : SourceRange) : string :=
  String.concat EmptyString
    (map (fun i => ((if Nat.eqb i (rangeBegin R) then EmptyString else inserted B i)
                     ++ standing Src B i)%string)
         (seq (rangeBegin R) (rangeSize R))).

End RewriteBuffer.

Definition getRewrittenText (Src : string) (R : Rewriter) : string :=
  RewriteBuffer.text Src (RewriteBuffer.applyEdits R).

Definition getRangeText (Src : string) (R : Rewriter) (Rg : SourceRange) : string :=
  RewriteBuffer.rangeText Src (RewriteBuffer.applyEdits R) Rg.

(** ** RewriteUtils and the name query *)

Module RewriteUtils.

(** Modelled from the spec: the temp-name prefix of the tool; the spec
    writes the generated names [tmp_var_N]. *)
Definition getTmpVarNamePrefix : string := "tmp_var_".

Definition decimal (n : N) : string := NilEmpty.string_of_uint (N.to_uint n).

(** Modelled from the spec: [RewriteUtils::getTmpTransName(Postfix, Name)],
    the prefix followed by the postfix in decimal. *)
Definition getTmpTransName (Postfix : N) : string :=
  (getTmpVarNamePrefix ++ decimal Postfix)%string.

(** Modelled from the spec: [RewriteUtils::insertStringBeforeFunc], an
    insertion at the first byte of the function declaration. *)
Definition insertStringBeforeFunc (FD : FunctionDecl) (Str : string)
    (TheRewriter : Rewriter) : Rewriter :=
  TheRewriter ++ [InsertText (rangeBegin (fdRange FD)) Str].

(** Modelled from the spec: [RewriteUtils::replaceExpr], the replacement of
    the byte range of the expression. *)
Definition replaceExpr (CE : CallExpr) (Str : string)
    (TheRewriter : Rewriter) : Rewriter :=
  TheRewriter ++ [ReplaceText (rangeBegin (callRange CE)) (rangeSize (callRange CE)) Str].

End RewriteUtils.

Module TransNameQueryWrap.

(** Modelled from the spec: the numeric postfix of an identifier that
    carries the temp-name prefix. *)
Definition postfixOf (Name : string) : option N :=
  match Str.stripPrefix RewriteUtils.getTmpVarNamePrefix Name with
  | Some rest => option_map N.of_uint (NilEmpty.uint_of_string rest)
  | None => None
  end.

(** Modelled from the spec: the name-uniqueness query, the maximum postfix
    among the identifiers of the translation unit that carry the prefix
    (0 when there is none). *)
Definition getMaxNamePostfix (Identifiers : list string) : N :=
  fold_left (fun MaxPostfix Name =>
               match postfixOf Name with
               | Some PostfixV => if N.ltb MaxPostfix PostfixV then PostfixV else MaxPostfix
               | None => MaxPostfix
               end)
            Identifiers 0%N.

End TransNameQueryWrap.

(** ** The name counter *)

(** Modelled from the spec: the counter of the name allocator.  Its
    declaration is in a header that is not part of the sources; it is an
    [unsigned int], as is the value the name query returns, 32 bits wide,
    and its increments wrap around. *)
Definition uintModulus : N := 4294967296%N.

Definition uintWrap (n : N) : N := (n mod uintModulus)%N.

(** The counter [n] after [k] increments. *)
Definition uintAdvance (k : nat) (n : N) : N :=
  Nat.iter k (fun m => uintWrap (m + 1)%N) n.

(** The seed of the name counter for a run: one past the largest postfix
    the name query finds, in [unsigned int] arithmetic. *)
Definition nameSeed (Identifiers : list string) : N :=
  uintWrap (TransNameQueryWrap.getMaxNamePostfix Identifiers + 1)%N.

(** ** The transformation object *)

Inductive TransErrorKind : Type :=
| TransSuccess | TransInternalError | TransMaxInstanceError.

(** The fields of [SimplifyCallExpr] and of its base class that the pass
    reads or writes.  The headers that declare them are not part of the
    sources: the two instance counters are kept as integers (a target
    ordinal may be any integer, the count never decreases);
    [NamePostfix] is the [unsigned int] name counter, a natural number
    that every assignment of the pass reduces with [uintWrap].
    A null pointer is [None]. *)
Record SimplifyCallExpr : Type := mkSimplifyCallExpr {
  TransformationCounter : Z;
  ValidInstanceNum : Z;
  QueryInstanceOnly : bool;
  TransError : TransErrorKind;
  TheCallExpr : option CallExpr;
  CurrentFD : option FunctionDecl;
  NamePostfix : N;
  TheRewriter : Rewriter
}.

Record SimplifyCallExprVisitor : Type := mkVisitor {
  ConsumerInstance : SimplifyCallExpr;
  VisitorCurrentFD : option FunctionDecl
}.

Definition setValidInstanceNum (v : Z) (s : SimplifyCallExpr) : SimplifyCallExpr :=
  mkSimplifyCallExpr (TransformationCounter s) v (QueryInstanceOnly s)
    (TransError s) (TheCallExpr s) (CurrentFD s) (NamePostfix s) (TheRewriter s).

Definition setSelection (CE : option CallExpr) (FD : option FunctionDecl)
    (s : SimplifyCallExpr) : SimplifyCallExpr :=
  mkSimplifyCallExpr (TransformationCounter s) (ValidInstanceNum s)
    (QueryInstanceOnly s) (TransError s) CE FD (NamePostfix s) (TheRewriter s).

Definition setTransError (e : TransErrorKind) (s : SimplifyCallExpr) : SimplifyCallExpr :=
  mkSimplifyCallExpr (TransformationCounter s) (ValidInstanceNum s)
    (QueryInstanceOnly s) e (TheCallExpr s) (CurrentFD s) (NamePostfix s)
    (TheRewriter s).

Definition setNamePostfix (n : N) (s : SimplifyCallExpr) : SimplifyCallExpr :=
  mkSimplifyCallExpr (TransformationCounter s) (ValidInstanceNum s)
    (QueryInstanceOnly s) (TransError s) (TheCallExpr s) (CurrentFD s) n
    (TheRewriter s).

Definition setTheRewriter (R : Rewriter) (s : SimplifyCallExpr) : SimplifyCallExpr :=
  mkSimplifyCallExpr (TransformationCounter s) (ValidInstanceNum s)
    (QueryInstanceOnly s) (TransError s) (TheCallExpr s) (CurrentFD s)
    (NamePostfix s) R.

(** ** The collection visitor *)

(** [SimplifyCallExprVisitor::VisitCallExpr]. *)
Definition VisitCallExpr (CE : CallExpr) (V : SimplifyCallExprVisitor)
    : bool * SimplifyCallExprVisitor :=
  let C := ConsumerInstance V in
  let C := setValidInstanceNum (ValidInstanceNum C + 1) C in
  if negb (Z.eqb (TransformationCounter C) (ValidInstanceNum C)) then
    (true, mkVisitor C (VisitorCurrentFD V))
  else
    let C := setSelection (Some CE) (VisitorCurrentFD V) C in
    (true, mkVisitor C (VisitorCurrentFD V)).

(** [SimplifyCallExprVisitor::VisitFunctionDecl]. *)
Definition VisitFunctionDecl (FD : FunctionDecl) (V : SimplifyCallExprVisitor)
    : bool * SimplifyCallExprVisitor :=
  (true, mkVisitor (ConsumerInstance V) (Some FD)).

(** [RecursiveASTVisitor::TraverseDecl]/[TraverseStmt]: the callback of the
    node first, then the children from left to right; a callback that
    returns [false] ends the whole walk. *)
Fixpoint Traverse (n : Node) (V : SimplifyCallExprVisitor)
    : bool * SimplifyCallExprVisitor :=
  let TraverseChildren :=
    fix go (ns : list Node) (V : SimplifyCallExprVisitor) :=
      match ns with
      | [] => (true, V)
      | c :: cs =>
          let (ok, V) := Traverse c V in
          if ok then go cs V else (false, V)
      end in
  match n with
  | FunctionDeclNode FD children =>
      let (ok, V) := VisitFunctionDecl FD V in
      if ok then TraverseChildren children V else (false, V)
  | CallExprNode CE children =>
      let (ok, V) := VisitCallExpr CE V in
      if ok then TraverseChildren children V else (false, V)
  | OtherNode children => TraverseChildren children V
  end.

(** [SimplifyCallExpr::HandleTopLevelDecl]: only function definitions are
    walked; the value of [TraverseDecl] is dropped. *)
Definition HandleTopLevelDecl (D : DeclGroupRef) (V : SimplifyCallExprVisitor)
    : SimplifyCallExprVisitor :=
  fold_left
    (fun V I =>
       match I with
       | FunctionDeclNode FD _ =>
           if isThisDeclarationADefinition FD then snd (Traverse I V) else V
       | _ => V
       end)
    D V.

(** Modelled from the spec: the state in which [SimplifyCallExpr::Initialize]
    leaves the two objects.  Their constructors are in headers that are not
    part of the sources; the running count is 1-based, so nothing is counted
    yet, nothing is selected and no edit is made. *)
Definition Initialize (Counter : Z) (QueryOnly : bool) : SimplifyCallExprVisitor :=
  mkVisitor
    (mkSimplifyCallExpr Counter 0 QueryOnly TransSuccess None None 0%N [])
    None.

(** [SimplifyCallExpr::handleOneArgStr]; the first component of the result
    is the out-parameter [Str].  [FD] is the [CurrentFD] of the object,
    which [HandleTranslationUnit] has asserted not to be null. *)
Definition handleOneArgStr (FD : FunctionDecl) (Arg : Expr) (s : SimplifyCallExpr)
    : string * SimplifyCallExpr :=
  let Str := "0" in
  let ArgT := exprType Arg in
  if negb (isUnionType ArgT) && negb (isStructureType ArgT) then (Str, s)
  else
    let Str := RewriteUtils.getTmpTransName (NamePostfix s) in
    let s := setNamePostfix (uintWrap (NamePostfix s + 1)%N) s in
    let TmpVarStr := Str in
    let TmpVarStr := getAsStringInternal (exprType Arg) TmpVarStr in
    let TmpVarStr := (TmpVarStr ++ ";" ++ Str.nl)%string in
    (Str, setTheRewriter
            (RewriteUtils.insertStringBeforeFunc FD TmpVarStr (TheRewriter s)) s).

(** [SimplifyCallExpr::replaceCallExpr]; [CE] and [FD] are the
    [TheCallExpr] and [CurrentFD] of the object, both asserted not to be
    null by the caller. *)
Definition replaceCallExpr (CE : CallExpr) (FD : FunctionDecl) (s : SimplifyCallExpr)
    : SimplifyCallExpr :=
  let CommaStr := EmptyString in
  match callArgs CE with
  | [] => setTheRewriter (RewriteUtils.replaceExpr CE CommaStr (TheRewriter s)) s
  | Arg :: Args =>
      let (ArgStr, s) := handleOneArgStr FD Arg s in
      let CommaStr := (CommaStr ++ ("(" ++ ArgStr))%string in
      let (CommaStr, s) :=
        fold_left
          (fun (acc : string * SimplifyCallExpr) (Arg : Expr) =>
             let (CommaStr, s) := acc in
             let (ArgStr, s) := handleOneArgStr FD Arg s in
             ((CommaStr ++ ("," ++ ArgStr))%string, s))
          Args (CommaStr, s) in
      let RVQualType := callType CE in
      let (CommaStr, s) :=
        if isVoidType RVQualType then (CommaStr, s)
        else if isUnionType RVQualType || isStructureType RVQualType then
          let RVStr := RewriteUtils.getTmpTransName (NamePostfix s) in
          let s := setNamePostfix (uintWrap (NamePostfix s + 1)%N) s in
          let CommaStr := (CommaStr ++ ("," ++ RVStr))%string in
          let RVStr := getAsStringInternal RVQualType RVStr in
          let RVStr := (RVStr ++ ";" ++ Str.nl)%string in
          (CommaStr,
           setTheRewriter
             (RewriteUtils.insertStringBeforeFunc FD RVStr (TheRewriter s)) s)
        else ((CommaStr ++ ",0")%string, s) in
      let CommaStr := (CommaStr ++ ")")%string in
      setTheRewriter (RewriteUtils.replaceExpr CE CommaStr (TheRewriter s)) s
  end.

(** How [HandleTranslationUnit] ends: it returns, or one of its two
    [TransAssert]s fails. *)
Inductive Outcome : Type :=
| Returned (s : SimplifyCallExpr)
| AssertionFailed.

(** [SimplifyCallExpr::HandleTranslationUnit].  [Identifiers] is what the
    name query finds in the translation unit, [DiagError] whether the
    diagnostics engine reports an error after the rewrite. *)
Definition HandleTranslationUnit (Identifiers : list string) (DiagError : bool)
    (s : SimplifyCallExpr) : Outcome :=
  if QueryInstanceOnly s then Returned s
  else if Z.gtb (TransformationCounter s) (ValidInstanceNum s) then
    Returned (setTransError TransMaxInstanceError s)
  else
    match TheCallExpr s, CurrentFD s with
    | Some CE, Some FD =>
        let s := setNamePostfix
                   (uintWrap
                      (TransNameQueryWrap.getMaxNamePostfix Identifiers + 1)%N) s in
        let s := replaceCallExpr CE FD s in
        if DiagError then Returned (setTransError TransInternalError s)
        else Returned s
    | _, _ => AssertionFailed
    end.

(** The collection phase: every declaration group goes through
    [HandleTopLevelDecl], in the order of the file. *)
Definition collect (Counter : Z) (QueryOnly : bool) (TU : TranslationUnit)
    : SimplifyCallExprVisitor :=
  fold_left (fun V D => HandleTopLevelDecl D V) (tuDeclGroups TU)
            (Initialize Counter QueryOnly).

(** One run of the pass on a translation unit. *)
Definition run (Counter : Z) (QueryOnly : bool) (DiagError : bool)
    (TU : TranslationUnit) : Outcome :=
  HandleTranslationUnit (tuIdentifiers TU) DiagError
    (ConsumerInstance (collect Counter QueryOnly TU)).

(** ** Example translation units *)

Module Examples.

Definition intTy : QualType := mkQualType IntegerTy "int".
Definition intPtrTy : QualType := mkQualType PointerTy "int *".
Definition voidTy : QualType := mkQualType VoidTy "void".
Definition structZ : QualType := mkQualType StructureTy "struct Z".
Definition structS : QualType := mkQualType StructureTy "struct S".
Definition structW : QualType := mkQualType StructureTy "struct W".

(** The example of the description message: [foo(i, p, s)] with
    [int foo(int, int *, struct Z)]. *)
Definition srcA : string :=
  "struct Z{int a;};int foo(int,int*,struct Z);void f(int i,int*p,struct Z s){foo(i,p,s);}".

Definition fA : FunctionDecl := mkFunctionDecl "f" true (mkRange 44 87).

Definition callA : CallExpr :=
  mkCallExpr intTy
    [mkExpr intTy (mkRange 79 80); mkExpr intPtrTy (mkRange 81 82);
     mkExpr structZ (mkRange 83 84)]
    (mkRange 75 85).

Definition tuA : TranslationUnit :=
  mkTU srcA
    [[OtherNode []];
     [FunctionDeclNode (mkFunctionDecl "foo" false (mkRange 17 43)) [OtherNode []]];
     [FunctionDeclNode fA
        [OtherNode [];
         OtherNode [CallExprNode callA [OtherNode []; OtherNode []; OtherNode []; OtherNode []]]]]]
    ["foo"; "f"; "i"; "p"; "s"].

(** A call nested in the argument of another call:
    [foo(bar())]. *)
Definition srcN : string :=
  "int bar(void);void foo(int);void f(void){foo(bar());}".

Definition fN : FunctionDecl := mkFunctionDecl "f" true (mkRange 28 53).

Definition callBar : CallExpr := mkCallExpr intTy [] (mkRange 45 50).

Definition callFoo : CallExpr :=
  mkCallExpr voidTy [mkExpr intTy (mkRange 45 50)] (mkRange 41 51).

Definition tuN : TranslationUnit :=
  mkTU srcN
    [[FunctionDeclNode (mkFunctionDecl "bar" false (mkRange 0 13)) []];
     [FunctionDeclNode (mkFunctionDecl "foo" false (mkRange 14 27)) [OtherNode []]];
     [FunctionDeclNode fN
        [OtherNode [CallExprNode callFoo [OtherNode []; CallExprNode callBar [OtherNode []]]]]]]
    ["bar"; "foo"; "f"].

(** A function declared at block scope before the call:
    [void f(struct S s) { void g(struct S); g(s); }]. *)
Definition srcL : string :=
  "struct S{int a;};void f(struct S s){void g(struct S);g(s);}".

Definition fL : FunctionDecl := mkFunctionDecl "f" true (mkRange 17 59).

Definition gL : FunctionDecl := mkFunctionDecl "g" false (mkRange 36 52).

Definition callG : CallExpr :=
  mkCallExpr voidTy [mkExpr structS (mkRange 55 56)] (mkRange 53 57).

Definition tuL : TranslationUnit :=
  mkTU srcL
    [[OtherNode []];
     [FunctionDeclNode fL
        [OtherNode [];
         OtherNode [OtherNode [FunctionDeclNode gL [OtherNode []]];
                    CallExprNode callG [OtherNode []; OtherNode []]]]]]
    ["f"; "s"; "g"].

(** A call without arguments to a [void] function: [g()]. *)
Definition srcB : string := "void g(void);void f(void){g();}".

Definition fB : FunctionDecl := mkFunctionDecl "f" true (mkRange 13 31).

Definition callB : CallExpr := mkCallExpr voidTy [] (mkRange 26 29).

Definition tuB : TranslationUnit :=
  mkTU srcB
    [[FunctionDeclNode (mkFunctionDecl "g" false (mkRange 0 12)) [OtherNode []]];
     [FunctionDeclNode fB [OtherNode [CallExprNode callB [OtherNode []]]]]]
    ["g"; "f"].

(** A call without arguments to a function that returns a struct:
    [h()]. *)
Definition srcC : string := "struct W{int a;};struct W h(void);void f(void){h();}".

Definition fC : FunctionDecl := mkFunctionDecl "f" true (mkRange 34 52).

Definition callC : CallExpr := mkCallExpr structW [] (mkRange 47 50).

Definition tuC : TranslationUnit :=
  mkTU srcC
    [[OtherNode []];
     [FunctionDeclNode (mkFunctionDecl "h" false (mkRange 17 33)) [OtherNode []]];
     [FunctionDeclNode fC [OtherNode [CallExprNode callC [OtherNode []]]]]]
    ["h"; "f"].

(** The call of the description message with [foo] declared at block
    scope, in front of the call:
    [void f(...) { int foo(int, int *, struct Z); foo(i, p, s); }]. *)
Definition srcS : string :=
  "struct Z{int a;};void f(int i,int*p,struct Z s){int foo(int,int*,struct Z);foo(i,p,s);}".

Definition fS : FunctionDecl := mkFunctionDecl "f" true (mkRange 17 87).

Definition fooS : FunctionDecl := mkFunctionDecl "foo" false (mkRange 48 74).

Definition callS : CallExpr :=
  mkCallExpr intTy
    [mkExpr intTy (mkRange 79 80); mkExpr intPtrTy (mkRange 81 82);
     mkExpr structZ (mkRange 83 84)]
    (mkRange 75 85).

Definition tuS : TranslationUnit :=
  mkTU srcS
    [[OtherNode []];
     [FunctionDeclNode fS
        [OtherNode [];
         OtherNode [OtherNode [FunctionDeclNode fooS [OtherNode []]];
                    CallExprNode callS [OtherNode []; OtherNode []; OtherNode []; OtherNode []]]]]]
    ["f"; "i"; "p"; "s"; "foo"].

(** Temporaries of an earlier reduction, one with the largest postfix an
    [unsigned int] holds:
    [struct S tmp_var_0, tmp_var_4294967295; ... g(s) ...]. *)
Definition srcU : string :=
  "struct S{int a;};struct S tmp_var_0,tmp_var_4294967295;void g(struct S);void f(struct S s){g(s);}".

Definition fU : FunctionDecl := mkFunctionDecl "f" true (mkRange 72 97).

Definition callU : CallExpr :=
  mkCallExpr voidTy [mkExpr structS (mkRange 93 94)] (mkRange 91 95).

Definition tuU : TranslationUnit :=
  mkTU srcU
    [[OtherNode []];
     [OtherNode []; OtherNode []];
     [FunctionDeclNode (mkFunctionDecl "g" false (mkRange 55 71)) [OtherNode []]];
     [FunctionDeclNode fU
        [OtherNode []; OtherNode [CallExprNode callU [OtherNode []; OtherNode []]]]]]
    ["tmp_var_0"; "tmp_var_4294967295"; "g"; "f"; "s"].






End Examples.

(** ** The walk as a sequence of callbacks *)

Inductive Visit : Type :=
| VisitFD (FD : FunctionDecl)
| VisitCE (CE : CallExpr).

(** The callbacks a walk from [n] makes, in order. *)
Fixpoint visits (n : Node) : list Visit :=
  match n with
  | FunctionDeclNode FD children => VisitFD FD :: flat_map visits children
  | CallExprNode CE children => VisitCE CE :: flat_map visits children
  | OtherNode children => flat_map visits children
  end.

Definition visitsOfGroup (D : DeclGroupRef) : list Visit :=
  flat_map
    (fun I =>
       match I with
       | FunctionDeclNode FD _ =>
           if isThisDeclarationADefinition FD then visits I else []
       | _ => []
       end)
    D.

Definition visitsOfTU (TU : TranslationUnit) : list Visit :=
  flat_map visitsOfGroup (tuDeclGroups TU).

(** The call expressions among the callbacks, in the order visited. *)
Definition callsOf (vs : list Visit) : list CallExpr :=
  flat_map (fun v => match v with VisitCE CE => [CE] | VisitFD _ => [] end) vs.

(** The number of call expressions the collection phase meets. *)
Definition totalCalls (TU : TranslationUnit) : Z :=
  Z.of_nat (List.length (callsOf (visitsOfTU TU))).

(** The function declaration visited last in [vs], [cur] when there is
    none. *)
Definition lastFD (cur : option FunctionDecl) (vs : list Visit) : option FunctionDecl :=
  fold_left (fun c v => match v with VisitFD FD => Some FD | VisitCE _ => c end)
            vs cur.

Definition callback (V : SimplifyCallExprVisitor) (v : Visit) : SimplifyCallExprVisitor :=
  match v with
  | VisitFD FD => snd (VisitFunctionDecl FD V)
  | VisitCE CE => snd (VisitCallExpr CE V)
  end.

Definition TraverseChildren : list Node -> SimplifyCallExprVisitor ->
                              bool * SimplifyCallExprVisitor :=
  fix go (ns : list Node) (V : SimplifyCallExprVisitor) :=
    match ns with
    | [] => (true, V)
    | c :: cs =>
        let (ok, V) := Traverse c V in
        if ok then go cs V else (false, V)
    end.

(** The innermost function definition around each call expression below
    [n], [encl] being the one around [n] itself. *)
Fixpoint callsWithEnclosing (encl : option FunctionDecl) (n : Node)
    : list (CallExpr * option FunctionDecl) :=
  match n with
  | FunctionDeclNode FD children =>
      flat_map
        (callsWithEnclosing
           (if isThisDeclarationADefinition FD then Some FD else encl))
        children
  | CallExprNode CE children =>
      (CE, encl) :: flat_map (callsWithEnclosing encl) children
  | OtherNode children => flat_map (callsWithEnclosing encl) children
  end.

Definition enclosingOfTU (TU : TranslationUnit)
    : list (CallExpr * option FunctionDecl) :=
  flat_map
    (flat_map
       (fun I =>
          match I with
          | FunctionDeclNode FD _ =>
              if isThisDeclarationADefinition FD
              then callsWithEnclosing None I else []
          | _ => []
          end))
    (tuDeclGroups TU).

(** ** What the rewrite is expected to produce *)

(** The aggregate types of the pass: structs and unions. *)
Definition isAggregate (T : QualType) : bool := isUnionType T || isStructureType T.

(** The types that get an operand in the comma expression: those of the
    arguments in order, then the type of the call unless it is [void]. *)
Definition operandTypes (CE : CallExpr) : list QualType :=
  map exprType (callArgs CE) ++
  (if isVoidType (callType CE) then [] else [callType CE]).

(** The operand texts for the types [Ts], the temp names being numbered
    from [n] on: a temp name for an aggregate, [0] for anything else. *)
Fixpoint operandsFrom (n : N) (Ts : list QualType) : list string :=
  match Ts with
  | [] => []
  | T :: Ts' =>
      if isAggregate T
      then RewriteUtils.getTmpTransName n :: operandsFrom (uintWrap (n + 1)%N) Ts'
      else "0" :: operandsFrom n Ts'
  end.

(** The text of a temp-variable declaration: [<type> <name>;] and a line
    feed. *)
Definition declText (T : QualType) (Name : string) : string :=
  (typeSpelling T ++ " " ++ Name ++ ";" ++ Str.nl)%string.

(** The declarations for the aggregates among [Ts], as insertions in front
    of [FD], the temp names being numbered from [n] on. *)
Fixpoint declsFrom (FD : FunctionDecl) (n : N) (Ts : list QualType) : list Edit :=
  match Ts with
  | [] => []
  | T :: Ts' =>
      if isAggregate T
      then InsertText (rangeBegin (fdRange FD))
                      (declText T (RewriteUtils.getTmpTransName n))
             :: declsFrom FD (uintWrap (n + 1)%N) Ts'
      else declsFrom FD n Ts'
  end.

Definition countAggregates (Ts : list QualType) : nat :=
  List.length (filter isAggregate Ts).

(** The temp names allocated for the types [Ts], numbered from [n] on. *)
Fixpoint namesFrom (n : N) (Ts : list QualType) : list string :=
  match Ts with
  | [] => []
  | T :: Ts' =>
      if isAggregate T
      then RewriteUtils.getTmpTransName n :: namesFrom (uintWrap (n + 1)%N) Ts'
      else namesFrom n Ts'
  end.

(** [Edits] more in the rewriter and [k] names used up. *)
Definition advance (Edits : list Edit) (k : nat) (s : SimplifyCallExpr) : SimplifyCallExpr :=
  setTheRewriter (TheRewriter s ++ Edits)
    (setNamePostfix (uintAdvance k (NamePostfix s)) s).

(** The replacement edit for [CE] with text [Text]. *)
Definition replacementOf (CE : CallExpr) (Text : string) : Edit :=
  ReplaceText (rangeBegin (callRange CE)) (rangeSize (callRange CE)) Text.

(** The comma expression over the operands [Ops]. *)
Definition commaExpr (Ops : list string) : string :=
  ("(" ++ String.concat "," Ops ++ ")")%string.

Definition isInsertAt (Loc : nat) (E : Edit) : Prop :=
  exists Text, E = InsertText Loc Text.

Definition isReplace (E : Edit) : bool :=
  match E with ReplaceText _ _ _ => true | InsertText _ _ => false end.

(** The operands [Ops], each with a comma in front: what the loop of the
    rewrite appends after the first operand. *)
Fixpoint commaTail (Ops : list string) : string :=
  match Ops with
  | [] => EmptyString
  | o :: Ops' => ("," ++ o ++ commaTail Ops')%string
  end.

(** The types whose operands make up the replacement of [CE]: none for a
    call without arguments, which is replaced by the empty text. *)
Definition rewrittenTypes (CE : CallExpr) : list QualType :=
  match callArgs CE with
  | [] => []
  | _ :: _ => operandTypes CE
  end.

(** The replacement text for [CE], the temp names being numbered from [n]
    on. *)
Definition replacementText (n : N) (CE : CallExpr) : string :=
  match callArgs CE with
  | [] => EmptyString
  | _ :: _ => commaExpr (operandsFrom n (operandTypes CE))
  end.

(** Each call expression among the callbacks with the function declaration
    visited last before it, [cur] when there is none. *)
Fixpoint callsWithLastFD (cur : option FunctionDecl) (vs : list Visit)
    : list (CallExpr * option FunctionDecl) :=
  match vs with
  | [] => []
  | VisitFD FD :: vs' => callsWithLastFD (Some FD) vs'
  | VisitCE CE :: vs' => (CE, cur) :: callsWithLastFD cur vs'
  end.

(** Whether a function declaration occurs at or below [n]. *)
Fixpoint hasFunctionDecl (n : Node) : bool :=
  match n with
  | FunctionDeclNode _ _ => true
  | CallExprNode _ children => existsb hasFunctionDecl children
  | OtherNode children => existsb hasFunctionDecl children
  end.

(** No function declaration is nested in a function definition of the
    translation unit (no block-scope prototype, no member function of a
    local class). *)
Definition noNestedFunctionDecl (TU : TranslationUnit) : bool :=
  forallb
    (forallb
       (fun I =>
          match I with
          | FunctionDeclNode FD children =>
              if isThisDeclarationADefinition FD
              then negb (existsb hasFunctionDecl children) else true
          | _ => true
          end))
    (tuDeclGroups TU).

(** ** Source ranges as the parser assigns them *)





(** ** Counting call expressions in the tree *)

(** The call expressions at or below [n], nested ones included. *)
Fixpoint countCallExprs (n : Node) : nat :=
  match n with
  | FunctionDeclNode _ children => list_sum (map countCallExprs children)
  | CallExprNode _ children => S (list_sum (map countCallExprs children))
  | OtherNode children => list_sum (map countCallExprs children)
  end.

(** Whether a top-level declaration is a function definition, the only kind
    of declaration [HandleTopLevelDecl] walks. *)
Definition isFunctionDefinition (I : Node) : bool :=
  match I with
  | FunctionDeclNode FD _ => isThisDeclarationADefinition FD
  | _ => false
  end.

(** The call expressions below the function definitions of the translation
    unit. *)
Definition countCallExprsTU (TU : TranslationUnit) : nat :=
  list_sum
    (map (fun D =>
            list_sum
              (map (fun I => if isFunctionDefinition I then countCallExprs I else 0) D))
         (tuDeclGroups TU)).

(** An operand that is not the literal [0]. *)
Definition isTempOperand (Op : string) : bool := negb (String.eqb Op "0").

(** ** Induction on AST nodes *)

Section NodeInduction.

Variable P : Node -> Prop.
Hypothesis HFunctionDecl :
  forall FD children, Forall P children -> P (FunctionDeclNode FD children).
Hypothesis HCallExpr :
  forall CE children, Forall P children -> P (CallExprNode CE children).
Hypothesis HOther :
  forall children, Forall P children -> P (OtherNode children).

Fixpoint Node_children_ind (n : Node) : P n :=
  let all :=
    fix all (ns : list Node) : Forall P ns :=
      match ns with
      | [] => Forall_nil P
      | c :: cs => Forall_cons c (Node_children_ind c) (all cs)
      end in
  match n with
  | FunctionDeclNode FD children => HFunctionDecl FD children (all children)
  | CallExprNode CE children => HCallExpr CE children (all children)
  | OtherNode children => HOther children (all children)
  end.

End NodeInduction.

(** ** The collection phase *)

Lemma VisitCallExpr_continues CE V : fst (VisitCallExpr CE V) = true.
Proof.
  unfold VisitCallExpr.
  destruct (negb _); reflexivity.
Qed.

Lemma TraverseChildren_visits ns :
  Forall (fun c => forall V, Traverse c V = (true, fold_left callback (visits c) V)) ns ->
  forall V, TraverseChildren ns V = (true, fold_left callback (flat_map visits ns) V).
Proof.
  induction 1 as [|c cs Hc _ IH]; intro V; simpl.
  - reflexivity.
  - rewrite Hc, fold_left_app. apply IH.
Qed.

(** No callback of the pass stops the walk: a walk is the left fold of the
    callbacks over the nodes in pre-order. *)
Lemma Traverse_visits n :
  forall V, Traverse n V = (true, fold_left callback (visits n) V).
Proof.
  induction n as [FD ch IH|CE ch IH|ch IH] using Node_children_ind; intro V.
  - change (Traverse (FunctionDeclNode FD ch) V)
      with (TraverseChildren ch (mkVisitor (ConsumerInstance V) (Some FD))).
    now rewrite TraverseChildren_visits.
  - change (Traverse (CallExprNode CE ch) V)
      with (let (ok, V') := VisitCallExpr CE V in
            if ok then TraverseChildren ch V' else (false, V')).
    pose proof (VisitCallExpr_continues CE V) as Hok.
    change (visits (CallExprNode CE ch)) with (VisitCE CE :: flat_map visits ch).
    change (fold_left callback (VisitCE CE :: flat_map visits ch) V)
      with (fold_left callback (flat_map visits ch) (snd (VisitCallExpr CE V))).
    destruct (VisitCallExpr CE V) as [ok V']. simpl in Hok. subst ok.
    now rewrite TraverseChildren_visits.
  - change (Traverse (OtherNode ch) V) with (TraverseChildren ch V).
    now rewrite TraverseChildren_visits.
Qed.

Lemma HandleTopLevelDecl_visits D :
  forall V, HandleTopLevelDecl D V = fold_left callback (visitsOfGroup D) V.
Proof.
  unfold HandleTopLevelDecl, visitsOfGroup.
  induction D as [|I D IH]; intro V; simpl.
  - reflexivity.
  - rewrite fold_left_app, IH.
    destruct I as [FD ch|CE ch|ch]; try reflexivity.
    destruct (isThisDeclarationADefinition FD); [|reflexivity].
    now rewrite Traverse_visits.
Qed.

Lemma collect_visits Counter QueryOnly TU :
  collect Counter QueryOnly TU =
  fold_left callback (visitsOfTU TU) (Initialize Counter QueryOnly).
Proof.
  unfold collect, visitsOfTU.
  generalize (Initialize Counter QueryOnly).
  induction (tuDeclGroups TU) as [|D Ds IH]; intro V; simpl.
  - reflexivity.
  - now rewrite fold_left_app, IH, HandleTopLevelDecl_visits.
Qed.

Lemma callsOf_app vs ws : callsOf (vs ++ ws) = callsOf vs ++ callsOf ws.
Proof. apply flat_map_app. Qed.

Lemma lastFD_app cur vs ws : lastFD cur (vs ++ ws) = lastFD (lastFD cur vs) ws.
Proof. apply fold_left_app. Qed.

(** The callbacks touch nothing but the counter, the selection and the
    current function of the visitor. *)
Lemma callback_frame V v :
  let C := ConsumerInstance V in
  let C' := ConsumerInstance (callback V v) in
  TransformationCounter C' = TransformationCounter C /\
  QueryInstanceOnly C' = QueryInstanceOnly C /\
  TransError C' = TransError C /\
  NamePostfix C' = NamePostfix C /\
  TheRewriter C' = TheRewriter C.
Proof.
  destruct v as [FD|CE]; simpl.
  - repeat split.
  - unfold VisitCallExpr. destruct (negb _); simpl; repeat split.
Qed.

Lemma collect_frame vs :
  forall V,
    let C := ConsumerInstance V in
    let C' := ConsumerInstance (fold_left callback vs V) in
    TransformationCounter C' = TransformationCounter C /\
    QueryInstanceOnly C' = QueryInstanceOnly C /\
    TransError C' = TransError C /\
    NamePostfix C' = NamePostfix C /\
    TheRewriter C' = TheRewriter C.
Proof.
  induction vs as [|v vs IH]; intro V; simpl.
  - repeat split.
  - destruct (IH (callback V v)) as (H1 & H2 & H3 & H4 & H5).
    destruct (callback_frame V v) as (G1 & G2 & G3 & G4 & G5).
    simpl in *. repeat split; congruence.
Qed.

(** The running count: one more for every call expression visited. *)
Lemma collect_count vs :
  forall V,
    ValidInstanceNum (ConsumerInstance (fold_left callback vs V)) =
    (ValidInstanceNum (ConsumerInstance V) + Z.of_nat (List.length (callsOf vs)))%Z.
Proof.
  induction vs as [|v vs IH]; intro V; simpl fold_left.
  - simpl. lia.
  - rewrite IH. destruct v as [FD|CE].
    + simpl. lia.
    + change (callsOf (VisitCE CE :: vs)) with (CE :: callsOf vs).
      simpl callback. unfold VisitCallExpr.
      destruct (negb _); simpl List.length; simpl ValidInstanceNum; lia.
Qed.

Lemma collect_currentFD vs :
  forall V,
    VisitorCurrentFD (fold_left callback vs V) = lastFD (VisitorCurrentFD V) vs.
Proof.
  induction vs as [|v vs IH]; intro V; simpl.
  - reflexivity.
  - rewrite IH. destruct v as [FD|CE]; simpl.
    + reflexivity.
    + unfold VisitCallExpr. destruct (negb _); reflexivity.
Qed.

(** A target that the count has already passed, or that it never reaches,
    leaves the recorded selection as it is. *)
Lemma collect_keeps_selection vs :
  forall V,
    let C := ConsumerInstance V in
    (TransformationCounter C <= ValidInstanceNum C \/
     ValidInstanceNum C + Z.of_nat (List.length (callsOf vs)) < TransformationCounter C)%Z ->
    TheCallExpr (ConsumerInstance (fold_left callback vs V)) = TheCallExpr C /\
    CurrentFD (ConsumerInstance (fold_left callback vs V)) = CurrentFD C.
Proof.
  induction vs as [|v vs IH]; intros V C H; simpl fold_left.
  - split; reflexivity.
  - destruct v as [FD|CE].
    + apply (IH (callback V (VisitFD FD))). exact H.
    + change (callsOf (VisitCE CE :: vs)) with (CE :: callsOf vs) in H.
      simpl List.length in H.
      assert (Hne : Z.eqb (TransformationCounter C) (ValidInstanceNum C + 1) = false)
        by (apply Z.eqb_neq; lia).
      destruct (IH (callback V (VisitCE CE))) as [H1 H2].
      * simpl callback. unfold VisitCallExpr. simpl. fold C. rewrite Hne. simpl.
        fold C. lia.
      * rewrite H1, H2. simpl callback. unfold VisitCallExpr. simpl. fold C.
        rewrite Hne. simpl. split; reflexivity.
Qed.

(** The selection: when the target lies within the calls still to come, the
    call recorded is the one at which the count reaches the target, and it
    is recorded with the function declaration visited last before it. *)
Lemma collect_selects vs :
  forall V,
    let C := ConsumerInstance V in
    (ValidInstanceNum C < TransformationCounter C <=
     ValidInstanceNum C + Z.of_nat (List.length (callsOf vs)))%Z ->
    exists pre CE post,
      vs = pre ++ VisitCE CE :: post /\
      Z.of_nat (List.length (callsOf pre)) =
        (TransformationCounter C - ValidInstanceNum C - 1)%Z /\
      TheCallExpr (ConsumerInstance (fold_left callback vs V)) = Some CE /\
      CurrentFD (ConsumerInstance (fold_left callback vs V)) =
        lastFD (VisitorCurrentFD V) pre.
Proof.
  induction vs as [|v vs IH]; intros V C H.
  - simpl in H. lia.
  - destruct v as [FD|CE].
    + destruct (IH (callback V (VisitFD FD)) H) as (pre & CE & post & E & L & S1 & S2).
      exists (VisitFD FD :: pre), CE, post. subst vs. repeat split; assumption.
    + change (callsOf (VisitCE CE :: vs)) with (CE :: callsOf vs) in H.
      simpl List.length in H.
      destruct (Z.eq_dec (TransformationCounter C) (ValidInstanceNum C + 1)) as [Heq|Hne].
      * exists [], CE, vs.
        assert (Hcb : callback V (VisitCE CE) =
                      mkVisitor (setSelection (Some CE) (VisitorCurrentFD V)
                                   (setValidInstanceNum (ValidInstanceNum C + 1) C))
                                (VisitorCurrentFD V)).
        { simpl callback. unfold VisitCallExpr. simpl. fold C.
          rewrite (proj2 (Z.eqb_eq _ _) Heq). reflexivity. }
        change (fold_left callback (VisitCE CE :: vs) V)
          with (fold_left callback vs (callback V (VisitCE CE))).
        rewrite Hcb.
        destruct (collect_keeps_selection vs
                    (mkVisitor (setSelection (Some CE) (VisitorCurrentFD V)
                                  (setValidInstanceNum (ValidInstanceNum C + 1) C))
                               (VisitorCurrentFD V))) as [H1 H2].
        { simpl. lia. }
        rewrite H1, H2. simpl. repeat split. lia.
      * assert (Hcb : callback V (VisitCE CE) =
                      mkVisitor (setValidInstanceNum (ValidInstanceNum C + 1) C)
                                (VisitorCurrentFD V)).
        { simpl callback. unfold VisitCallExpr. simpl. fold C.
          rewrite (proj2 (Z.eqb_neq _ _) Hne). reflexivity. }
        pose proof (IH (callback V (VisitCE CE))) as IH'. cbv zeta in IH'.
        assert (E1 : ValidInstanceNum (ConsumerInstance (callback V (VisitCE CE))) =
                     (ValidInstanceNum C + 1)%Z) by (rewrite Hcb; reflexivity).
        assert (E2 : TransformationCounter (ConsumerInstance (callback V (VisitCE CE))) =
                     TransformationCounter C) by (rewrite Hcb; reflexivity).
        assert (E3 : VisitorCurrentFD (callback V (VisitCE CE)) = VisitorCurrentFD V)
          by (rewrite Hcb; reflexivity).
        rewrite E1, E2, E3 in IH'.
        destruct IH' as (pre & CE' & post & E & L & S1 & S2); [lia|].
        exists (VisitCE CE :: pre), CE', post. subst vs.
        repeat split.
        -- change (callsOf (VisitCE CE :: pre)) with (CE :: callsOf pre).
           simpl List.length. lia.
        -- exact S1.
        -- exact S2.
Qed.

(** The walk of a translation unit starts at a function definition: the
    first callback, if any, is for a function declaration. *)
Lemma visits_starts_with_FD TU :
  visitsOfTU TU = [] \/ exists FD vs, visitsOfTU TU = VisitFD FD :: vs.
Proof.
  unfold visitsOfTU.
  induction (tuDeclGroups TU) as [|D Ds IH]; simpl.
  - now left.
  - assert (HD : visitsOfGroup D = [] \/ exists FD vs, visitsOfGroup D = VisitFD FD :: vs).
    { unfold visitsOfGroup. induction D as [|I D IHD]; simpl.
      - now left.
      - destruct I as [FD ch|CE ch|ch]; try exact IHD.
        destruct (isThisDeclarationADefinition FD); [|exact IHD].
        right. simpl. eauto. }
    destruct HD as [HD|(FD & vs & HD)]; rewrite HD; simpl.
    + exact IH.
    + right. eauto.
Qed.

Lemma lastFD_some FD vs : lastFD (Some FD) vs <> None.
Proof.
  revert FD. induction vs as [|v vs IH]; intro FD; simpl.
  - discriminate.
  - destruct v; apply IH.
Qed.

(** ** Lemmas on strings *)

Lemma append_assoc (a b c : string) : ((a ++ b) ++ c = a ++ (b ++ c))%string.
Proof. induction a as [|x a IH]; simpl; [reflexivity|now rewrite IH]. Qed.

Lemma append_nil_r (a : string) : (a ++ EmptyString = a)%string.
Proof. induction a as [|x a IH]; simpl; [reflexivity|now rewrite IH]. Qed.

Lemma stripPrefix_app p s : Str.stripPrefix p (p ++ s) = Some s.
Proof.
  induction p as [|a p IH]; simpl; [reflexivity|].
  now rewrite Ascii.eqb_refl.
Qed.

Lemma stripLast_app c s : Str.stripLast c (s ++ String c EmptyString) = Some s.
Proof.
  induction s as [|a s IH].
  - simpl. now rewrite Ascii.eqb_refl.
  - change ((String a s ++ String c EmptyString)%string) with (String a (s ++ String c EmptyString)).
    destruct s as [|b s].
    + simpl. now rewrite Ascii.eqb_refl.
    + simpl in IH |- *. now rewrite IH.
Qed.

Lemma noComma_app a b : Str.noComma (a ++ b) = Str.noComma a && Str.noComma b.
Proof.
  induction a as [|x a IH]; simpl; [reflexivity|].
  now rewrite IH, andb_assoc.
Qed.

Lemma splitComma_noComma s : Str.noComma s = true -> Str.splitComma s = [s].
Proof.
  induction s as [|c s IH]; simpl; [reflexivity|].
  intro H. apply andb_prop in H. destruct H as [Hc Hs].
  apply negb_true_iff in Hc. rewrite Hc, (IH Hs). reflexivity.
Qed.

Lemma splitComma_field a s :
  Str.noComma a = true ->
  Str.splitComma (a ++ String Str.comma s) = a :: Str.splitComma s.
Proof.
  induction a as [|c a IH]; simpl; intro H.
  - reflexivity.
  - apply andb_prop in H. destruct H as [Hc Ha].
    apply negb_true_iff in Hc. rewrite Hc, (IH Ha). reflexivity.
Qed.

(** Splitting at the commas undoes joining with commas. *)
Lemma splitComma_concat Ops :
  Ops <> [] -> Forall (fun o => Str.noComma o = true) Ops ->
  Str.splitComma (String.concat "," Ops) = Ops.
Proof.
  induction Ops as [|a Ops IH]; intros Hne Hall; [congruence|].
  inversion Hall as [|? ? Ha Hr]; subst.
  destruct Ops as [|b Ops].
  - simpl. now apply splitComma_noComma.
  - change (String.concat "," (a :: b :: Ops))
      with ((a ++ String Str.comma (String.concat "," (b :: Ops)))%string).
    rewrite splitComma_field by assumption.
    rewrite IH; [reflexivity|discriminate|assumption].
Qed.

Lemma commaOperands_commaExpr Ops :
  Ops <> [] -> Forall (fun o => Str.noComma o = true) Ops ->
  Str.commaOperands (commaExpr Ops) = Some Ops.
Proof.
  intros Hne Hall. unfold commaExpr, Str.commaOperands. simpl.
  rewrite stripLast_app. simpl. now rewrite splitComma_concat.
Qed.

Lemma decimal_noComma n : Str.noComma (RewriteUtils.decimal n) = true.
Proof.
  unfold RewriteUtils.decimal.
  induction (N.to_uint n); simpl; auto.
Qed.

Lemma getTmpTransName_noComma n : Str.noComma (RewriteUtils.getTmpTransName n) = true.
Proof.
  unfold RewriteUtils.getTmpTransName. rewrite noComma_app, decimal_noComma.
  reflexivity.
Qed.

Lemma operandsFrom_noComma Ts :
  forall n, Forall (fun o => Str.noComma o = true) (operandsFrom n Ts).
Proof.
  induction Ts as [|T Ts IH]; intro n; simpl.
  - constructor.
  - destruct (isAggregate T); constructor; auto using getTmpTransName_noComma.
Qed.

Lemma operandsFrom_length Ts :
  forall n, List.length (operandsFrom n Ts) = List.length Ts.
Proof.
  induction Ts as [|T Ts IH]; intro n; simpl; [reflexivity|].
  destruct (isAggregate T); simpl; now rewrite IH.
Qed.

(** The postfix of a generated name reads back as the number it was made
    from. *)
Lemma postfixOf_getTmpTransName n :
  TransNameQueryWrap.postfixOf (RewriteUtils.getTmpTransName n) = Some n.
Proof.
  unfold TransNameQueryWrap.postfixOf, RewriteUtils.getTmpTransName.
  rewrite stripPrefix_app. unfold RewriteUtils.decimal.
  rewrite NilEmpty.usu. simpl. now rewrite DecimalN.Unsigned.of_to.
Qed.

Lemma getTmpTransName_inj n m :
  RewriteUtils.getTmpTransName n = RewriteUtils.getTmpTransName m -> n = m.
Proof.
  intro H. apply (f_equal TransNameQueryWrap.postfixOf) in H.
  rewrite !postfixOf_getTmpTransName in H. congruence.
Qed.

Lemma commaTail_app Ops Ops' :
  commaTail (Ops ++ Ops') = (commaTail Ops ++ commaTail Ops')%string.
Proof.
  induction Ops as [|o Ops IH]; simpl; [reflexivity|].
  now rewrite IH, append_assoc.
Qed.

Lemma concat_commaTail o Ops : String.concat "," (o :: Ops) = (o ++ commaTail Ops)%string.
Proof.
  revert o. induction Ops as [|o' Ops IH]; intro o.
  - simpl. now rewrite append_nil_r.
  - change (String.concat "," (o :: o' :: Ops))
      with ((o ++ "," ++ String.concat "," (o' :: Ops))%string).
    now rewrite IH.
Qed.

(** ** The name counter *)

Lemma uintAdvance_succ_l k n :
  uintAdvance (S k) n = uintAdvance k (uintWrap (n + 1)).
Proof.
  unfold uintAdvance.
  exact (Nat.iter_succ_r k N (fun m => uintWrap (m + 1)%N) n).
Qed.

Lemma uintAdvance_add k1 k2 n :
  uintAdvance k2 (uintAdvance k1 n) = uintAdvance (k1 + k2) n.
Proof.
  unfold uintAdvance. rewrite Nat.add_comm. symmetry.
  exact (Nat.iter_add k2 k1 N (fun m => uintWrap (m + 1)%N) n).
Qed.

(** On a counter in range, [k] increments are one addition modulo 2^32. *)
Lemma uintAdvance_mod k n :
  (n < uintModulus)%N -> uintAdvance k n = uintWrap (n + N.of_nat k).
Proof.
  intro Hn. induction k as [|k IH].
  - simpl. unfold uintWrap. rewrite N.add_0_r. symmetry. now apply N.mod_small.
  - change (uintAdvance (S k) n) with (uintWrap (uintAdvance k n + 1)).
    rewrite IH. unfold uintWrap.
    rewrite N.Div0.add_mod_idemp_l. f_equal. lia.
Qed.

(** Increments that stay below 2^32 are plain additions. *)
Lemma uintAdvance_no_wrap k n :
  (n + N.of_nat k < uintModulus)%N -> uintAdvance k n = (n + N.of_nat k)%N.
Proof.
  intro H. rewrite uintAdvance_mod by lia. unfold uintWrap. now apply N.mod_small.
Qed.

Lemma uintWrap_lt n : (uintWrap n < uintModulus)%N.
Proof. unfold uintWrap. apply N.mod_lt. discriminate. Qed.

(** Fewer than 2^32 increments apart, two values of a counter in range
    differ. *)
Lemma uintAdvance_inj n j k :
  (n < uintModulus)%N ->
  (N.of_nat j < uintModulus)%N -> (N.of_nat k < uintModulus)%N ->
  uintAdvance j n = uintAdvance k n -> j = k.
Proof.
  intros Hn Hj Hk E. rewrite !uintAdvance_mod in E by assumption.
  unfold uintWrap in E.
  assert (M0 : uintModulus <> 0%N) by discriminate.
  pose proof (N.div_mod (n + N.of_nat j) uintModulus M0) as Dj.
  pose proof (N.div_mod (n + N.of_nat k) uintModulus M0) as Dk.
  pose proof (N.mod_lt (n + N.of_nat k) uintModulus M0) as Lk.
  rewrite E in Dj.
  set (r := ((n + N.of_nat k) mod uintModulus)%N) in *.
  set (qj := ((n + N.of_nat j) / uintModulus)%N) in *.
  set (qk := ((n + N.of_nat k) / uintModulus)%N) in *.
  assert (qj = qk) by nia.
  subst qj. lia.
Qed.

(** ** The rewrite *)

Lemma advance_nil s : advance [] 0 s = s.
Proof.
  destruct s. unfold advance, setTheRewriter, setNamePostfix. simpl.
  now rewrite app_nil_r.
Qed.

Lemma advance_advance E1 k1 E2 k2 s :
  advance E2 k2 (advance E1 k1 s) = advance (E1 ++ E2) (k1 + k2) s.
Proof.
  unfold advance, setTheRewriter, setNamePostfix. simpl.
  now rewrite app_assoc, uintAdvance_add.
Qed.

Lemma countAggregates_cons T Ts :
  countAggregates (T :: Ts) =
  (if isAggregate T then 1 else 0) + countAggregates Ts.
Proof.
  unfold countAggregates. simpl. destruct (isAggregate T); reflexivity.
Qed.

Lemma countAggregates_nil : countAggregates [] = 0.
Proof. reflexivity. Qed.

Lemma countAggregates_app Ts Ts' :
  countAggregates (Ts ++ Ts') = countAggregates Ts + countAggregates Ts'.
Proof.
  unfold countAggregates. now rewrite filter_app, length_app.
Qed.

Lemma operandsFrom_app Ts Ts' :
  forall n,
    operandsFrom n (Ts ++ Ts') =
    operandsFrom n Ts ++ operandsFrom (uintAdvance (countAggregates Ts) n) Ts'.
Proof.
  induction Ts as [|T Ts IH]; intro n; simpl.
  - reflexivity.
  - rewrite countAggregates_cons. destruct (isAggregate T); rewrite IH.
    + now rewrite <- uintAdvance_succ_l.
    + reflexivity.
Qed.

Lemma declsFrom_app FD Ts Ts' :
  forall n,
    declsFrom FD n (Ts ++ Ts') =
    declsFrom FD n Ts ++ declsFrom FD (uintAdvance (countAggregates Ts) n) Ts'.
Proof.
  induction Ts as [|T Ts IH]; intro n; simpl.
  - reflexivity.
  - rewrite countAggregates_cons. destruct (isAggregate T); rewrite IH.
    + now rewrite <- uintAdvance_succ_l.
    + reflexivity.
Qed.

(** The declaration text built by the pass is [<type> <name>;] and a line
    feed. *)
Lemma declaration_text T n :
  (getAsStringInternal T (RewriteUtils.getTmpTransName n) ++ ";" ++ Str.nl)%string =
  declText T (RewriteUtils.getTmpTransName n).
Proof.
  unfold declText.
  change (getAsStringInternal T (RewriteUtils.getTmpTransName n))
    with ((typeSpelling T ++ " " ++ RewriteUtils.getTmpTransName n)%string).
  rewrite append_assoc. f_equal.
Qed.

(** One argument: the operand text and what happens to the state. *)
Lemma handleOneArgStr_spec FD Arg s :
  handleOneArgStr FD Arg s =
  if isAggregate (exprType Arg)
  then (RewriteUtils.getTmpTransName (NamePostfix s),
        advance [InsertText (rangeBegin (fdRange FD))
                   (declText (exprType Arg)
                      (RewriteUtils.getTmpTransName (NamePostfix s)))] 1 s)
  else ("0", s).
Proof.
  unfold handleOneArgStr, isAggregate.
  rewrite <- negb_orb.
  destruct (isUnionType (exprType Arg) || isStructureType (exprType Arg)); simpl negb; cbv iota.
  - rewrite declaration_text. reflexivity.
  - reflexivity.
Qed.

Lemma handleOneArgStr_operands FD Arg s :
  handleOneArgStr FD Arg s =
  (hd "0" (operandsFrom (NamePostfix s) [exprType Arg]),
   advance (declsFrom FD (NamePostfix s) [exprType Arg])
           (countAggregates [exprType Arg]) s).
Proof.
  rewrite handleOneArgStr_spec. unfold countAggregates. simpl.
  destruct (isAggregate (exprType Arg)); simpl.
  - reflexivity.
  - now rewrite advance_nil.
Qed.

(** The loop over the remaining arguments. *)
Lemma handleArgs_spec FD Args :
  forall CommaStr s,
    fold_left
      (fun (acc : string * SimplifyCallExpr) (Arg : Expr) =>
         let (CommaStr, s) := acc in
         let (ArgStr, s) := handleOneArgStr FD Arg s in
         ((CommaStr ++ ("," ++ ArgStr))%string, s))
      Args (CommaStr, s) =
    ((CommaStr ++ commaTail (operandsFrom (NamePostfix s) (map exprType Args)))%string,
     advance (declsFrom FD (NamePostfix s) (map exprType Args))
             (countAggregates (map exprType Args)) s).
Proof.
  induction Args as [|Arg Args IH]; intros CommaStr s.
  - simpl. unfold countAggregates. simpl. now rewrite append_nil_r, advance_nil.
  - simpl fold_left. rewrite handleOneArgStr_spec.
    simpl map. simpl operandsFrom. simpl declsFrom. rewrite countAggregates_cons.
    destruct (isAggregate (exprType Arg)).
    + rewrite IH, advance_advance. simpl commaTail.
      rewrite !append_assoc. reflexivity.
    + rewrite IH. simpl commaTail. rewrite !append_assoc. reflexivity.
Qed.

Lemma replaceExpr_advance CE Text s :
  setTheRewriter (RewriteUtils.replaceExpr CE Text (TheRewriter s)) s =
  advance [replacementOf CE Text] 0 s.
Proof.
  destruct s. reflexivity.
Qed.

(** A call without arguments: one replacement by the empty text, whatever
    the type of the call. *)
Lemma replaceCallExpr_noargs CE FD s :
  callArgs CE = [] ->
  replaceCallExpr CE FD s = advance [replacementOf CE EmptyString] 0 s.
Proof.
  intro H. unfold replaceCallExpr. rewrite H. apply replaceExpr_advance.
Qed.

(** A call with arguments: the declarations of the temporaries, then one
    replacement by the comma expression over the operands. *)
Lemma replaceCallExpr_args CE FD s :
  callArgs CE <> [] ->
  replaceCallExpr CE FD s =
  advance
    (declsFrom FD (NamePostfix s) (operandTypes CE) ++
     [replacementOf CE (commaExpr (operandsFrom (NamePostfix s) (operandTypes CE)))])
    (countAggregates (operandTypes CE)) s.
Proof.
  intro Hne. unfold replaceCallExpr, operandTypes.
  destruct (callArgs CE) as [|Arg Args]; [congruence|clear Hne].
  rewrite handleOneArgStr_operands.
  rewrite handleArgs_spec.
  set (n := NamePostfix s).
  set (T0 := exprType Arg).
  set (Ts := map exprType Args).
  change (map exprType (Arg :: Args)) with ([T0] ++ Ts).
  rewrite <- app_assoc.
  rewrite (operandsFrom_app [T0]), (declsFrom_app FD [T0]), (countAggregates_app [T0]).
  change (NamePostfix (advance (declsFrom FD n [T0]) (countAggregates [T0]) s))
    with (uintAdvance (countAggregates [T0]) n).
  rewrite advance_advance.
  set (n1 := uintAdvance (countAggregates [T0]) n).
  assert (Hop : exists a0, operandsFrom n [T0] = [a0]).
  { simpl. destruct (isAggregate T0); eauto. }
  destruct Hop as [a0 Hop]. rewrite Hop. simpl hd.
  set (d0 := declsFrom FD n [T0]).
  rewrite operandsFrom_app, declsFrom_app, countAggregates_app.
  set (n2 := uintAdvance (countAggregates Ts) n1).
  set (ops := operandsFrom n1 Ts).
  set (ds := declsFrom FD n1 Ts).
  change (([a0] ++ ops ++ ?x)) with (a0 :: (ops ++ x)).
  unfold commaExpr. rewrite concat_commaTail, commaTail_app.
  assert (Hn2 : NamePostfix
                  (advance (d0 ++ ds) (countAggregates [T0] + countAggregates Ts) s) = n2).
  { unfold n2, n1. rewrite uintAdvance_add. reflexivity. }
  destruct (isVoidType (callType CE)).
  - rewrite replaceExpr_advance, advance_advance.
    simpl operandsFrom. simpl declsFrom. simpl commaTail.
    rewrite ?append_nil_r, ?app_nil_r, ?countAggregates_nil, ?Nat.add_0_r.
    reflexivity.
  - fold (isAggregate (callType CE)).
    rewrite Hn2.
    simpl operandsFrom. simpl declsFrom.
    rewrite (countAggregates_cons (callType CE) []), countAggregates_nil.
    destruct (isAggregate (callType CE)).
    + rewrite replaceExpr_advance.
      match goal with
      | |- context [setTheRewriter (RewriteUtils.insertStringBeforeFunc FD ?t ?r) ?s'] =>
          replace (setTheRewriter (RewriteUtils.insertStringBeforeFunc FD t r) s')
            with (advance [InsertText (rangeBegin (fdRange FD))
                             (declText (callType CE) (RewriteUtils.getTmpTransName n2))] 1
                    (advance (d0 ++ ds) (countAggregates [T0] + countAggregates Ts) s))
      end.
      * rewrite !advance_advance. simpl commaTail.
        rewrite ?append_nil_r, ?app_nil_r.
        rewrite ?append_assoc, <- ?app_assoc.
        f_equal; try reflexivity; lia.
      * rewrite <- declaration_text.
        unfold advance at 1. rewrite Hn2.
        unfold setTheRewriter, setNamePostfix, RewriteUtils.insertStringBeforeFunc.
        simpl. reflexivity.
    + rewrite replaceExpr_advance, advance_advance. simpl commaTail.
      rewrite ?append_nil_r, ?app_nil_r.
      rewrite ?append_assoc, <- ?app_assoc.
      f_equal; try reflexivity; lia.
Qed.

(** ** The run *)

(** What the collection phase leaves in the transformation object. *)
Lemma collect_state Counter QueryOnly TU :
  let C := ConsumerInstance (collect Counter QueryOnly TU) in
  TransformationCounter C = Counter /\
  ValidInstanceNum C = totalCalls TU /\
  QueryInstanceOnly C = QueryOnly /\
  TransError C = TransSuccess /\
  NamePostfix C = 0%N /\
  TheRewriter C = [].
Proof.
  cbv zeta. rewrite collect_visits.
  destruct (collect_frame (visitsOfTU TU) (Initialize Counter QueryOnly))
    as (H1 & H2 & H3 & H4 & H5).
  rewrite collect_count. unfold totalCalls.
  repeat split; assumption.
Qed.

(** The selection of a target within range: the call at which the count
    reaches the target, with the function declaration visited last before
    that call, and there is such a declaration. *)
Lemma collect_in_range Counter QueryOnly TU :
  (1 <= Counter <= totalCalls TU)%Z ->
  exists pre CE post FD,
    visitsOfTU TU = pre ++ VisitCE CE :: post /\
    Z.of_nat (List.length (callsOf pre)) = (Counter - 1)%Z /\
    lastFD None pre = Some FD /\
    ConsumerInstance (collect Counter QueryOnly TU) =
      mkSimplifyCallExpr Counter (totalCalls TU) QueryOnly TransSuccess
        (Some CE) (Some FD) 0%N [].
Proof.
  intro H.
  destruct (collect_state Counter QueryOnly TU) as (H1 & H2 & H3 & H4 & H5 & H6).
  destruct (collect_selects (visitsOfTU TU) (Initialize Counter QueryOnly))
    as (pre & CE & post & E & L & S1 & S2).
  { simpl. unfold totalCalls in H. lia. }
  simpl in L, S2. rewrite <- collect_visits in S1, S2.
  assert (HFD : exists FD, lastFD None pre = Some FD).
  { destruct (visits_starts_with_FD TU) as [Hnil|(FD0 & vs & Hcons)].
    - rewrite Hnil in E. destruct pre; discriminate.
    - rewrite Hcons in E. destruct pre as [|v pre]; [discriminate|].
      injection E as Ev Er. subst v. simpl.
      destruct (lastFD (Some FD0) pre) as [FD|] eqn:El.
      + eauto.
      + now apply lastFD_some in El. }
  destruct HFD as [FD HFD].
  exists pre, CE, post, FD. repeat split; try assumption; try lia.
  rewrite HFD in S2.
  destruct (ConsumerInstance (collect Counter QueryOnly TU)).
  simpl in *. congruence.
Qed.

(** A run with a target within range: both assertions hold and the rewrite
    is carried out on the selected call with a counter seeded one past the
    largest postfix in use. *)
Lemma run_in_range Counter DiagError TU :
  (1 <= Counter <= totalCalls TU)%Z ->
  exists pre CE post FD,
    visitsOfTU TU = pre ++ VisitCE CE :: post /\
    Z.of_nat (List.length (callsOf pre)) = (Counter - 1)%Z /\
    lastFD None pre = Some FD /\
    let s0 := mkSimplifyCallExpr Counter (totalCalls TU) false TransSuccess
                (Some CE) (Some FD) (nameSeed (tuIdentifiers TU)) [] in
    run Counter false DiagError TU =
      Returned (if DiagError
                then setTransError TransInternalError (replaceCallExpr CE FD s0)
                else replaceCallExpr CE FD s0).
Proof.
  intro H.
  destruct (collect_in_range Counter false TU H) as (pre & CE & post & FD & E & L & F & S).
  exists pre, CE, post, FD. repeat split; try assumption.
  cbv zeta. unfold run. rewrite S. unfold HandleTranslationUnit. simpl.
  replace (Counter >? totalCalls TU)%Z with false
    by (symmetry; rewrite Z.gtb_ltb; apply Z.ltb_ge; lia).
  unfold setNamePostfix. simpl.
  destruct DiagError; reflexivity.
Qed.

(** A run with a target past the last call. *)
Lemma run_out_of_range Counter DiagError TU :
  (totalCalls TU < Counter)%Z ->
  run Counter false DiagError TU =
    Returned (mkSimplifyCallExpr Counter (totalCalls TU) false
                TransMaxInstanceError None None 0%N []).
Proof.
  intro H. unfold run.
  destruct (collect_state Counter false TU) as (H1 & H2 & H3 & H4 & H5 & H6).
  rewrite collect_visits in *.
  destruct (collect_keeps_selection (visitsOfTU TU) (Initialize Counter false)) as [S1 S2].
  { right. simpl. unfold totalCalls in H. lia. }
  simpl in S1, S2.
  destruct (ConsumerInstance (fold_left callback (visitsOfTU TU) (Initialize Counter false))).
  simpl in *. subst.
  unfold HandleTranslationUnit. simpl.
  replace (Counter >? totalCalls TU)%Z with true
    by (symmetry; rewrite Z.gtb_ltb; apply Z.ltb_lt; lia).
  reflexivity.
Qed.

(** ** The text buffer *)

Lemma applyEdits_app R1 R2 :
  RewriteBuffer.applyEdits (R1 ++ R2) =
  fold_left RewriteBuffer.applyEdit R2 (RewriteBuffer.applyEdits R1).
Proof. apply fold_left_app. Qed.

(** Insertions at one offset change nothing but the text in front of that
    offset. *)
Lemma insertions_frame Loc Ds :
  Forall (isInsertAt Loc) Ds ->
  forall B,
    let B' := fold_left RewriteBuffer.applyEdit Ds B in
    (forall i, i <> Loc -> RewriteBuffer.inserted B' i = RewriteBuffer.inserted B i) /\
    (forall i, RewriteBuffer.replacement B' i = RewriteBuffer.replacement B i) /\
    (forall i, RewriteBuffer.removed B' i = RewriteBuffer.removed B i).
Proof.
  induction 1 as [|D Ds [Text HD] _ IH]; intro B; simpl.
  - repeat split.
  - subst D. destruct (IH (RewriteBuffer.applyEdit B (InsertText Loc Text)))
      as (H1 & H2 & H3).
    repeat split; intros.
    + rewrite H1 by assumption. simpl.
      destruct (Nat.eqb_spec i Loc); [contradiction|reflexivity].
    + now rewrite H2.
    + now rewrite H3.
Qed.

Lemma declsFrom_insertions FD Ts :
  forall n, Forall (isInsertAt (rangeBegin (fdRange FD))) (declsFrom FD n Ts).
Proof.
  induction Ts as [|T Ts IH]; intro n; simpl.
  - constructor.
  - destruct (isAggregate T); [constructor|]; auto.
    eexists. reflexivity.
Qed.

Lemma declsFrom_length FD Ts :
  forall n, List.length (declsFrom FD n Ts) = List.length (filter isAggregate Ts).
Proof.
  induction Ts as [|T Ts IH]; intro n; simpl; [reflexivity|].
  destruct (isAggregate T); simpl; now rewrite IH.
Qed.

Lemma declsFrom_no_replace FD Ts :
  forall n, filter isReplace (declsFrom FD n Ts) = [].
Proof.
  induction Ts as [|T Ts IH]; intro n; simpl; [reflexivity|].
  destruct (isAggregate T); simpl; apply IH.
Qed.



Lemma concat_empty (l : list nat) : String.concat EmptyString (map (fun _ => EmptyString) l) = EmptyString.
Proof.
  induction l as [|a l IH]; [reflexivity|].
  simpl. destruct (map (fun _ : nat => EmptyString) l); [reflexivity|exact IH].
Qed.

Lemma concat_cons (a : string) (l : list string) :
  String.concat EmptyString (a :: l) = (a ++ String.concat EmptyString l)%string.
Proof.
  destruct l; simpl; [now rewrite append_nil_r|reflexivity].
Qed.

(** Where the replaced call stood, the replacement text now stands. *)
Lemma rewrite_range Src FD Ds CE Text :
  Forall (isInsertAt (rangeBegin (fdRange FD))) Ds ->
  rangeBegin (callRange CE) < rangeEnd (callRange CE) ->
  rangeBegin (fdRange FD) <= rangeBegin (callRange CE) \/
  rangeEnd (callRange CE) <= rangeBegin (fdRange FD) ->
  getRangeText Src (Ds ++ [replacementOf CE Text]) (callRange CE) = Text.
Proof.
  intros HDs Hne Hfd. unfold getRangeText, RewriteBuffer.rangeText.
  rewrite applyEdits_app.
  destruct (insertions_frame _ Ds HDs (RewriteBuffer.applyEdits [])) as (H1 & H2 & H3).
  set (B := fold_left RewriteBuffer.applyEdit Ds (RewriteBuffer.applyEdits [])) in *.
  set (b := rangeBegin (callRange CE)) in *.
  assert (Hin : forall i, b <= i < b + rangeSize (callRange CE) ->
                  Nat.leb b i && Nat.ltb i (b + rangeSize (callRange CE)) = true).
  { intros i Hi. apply andb_true_intro. split.
    - apply Nat.leb_le. lia.
    - apply Nat.ltb_lt. lia. }
  assert (Hsz : rangeSize (callRange CE) = S (rangeSize (callRange CE) - 1))
    by (unfold rangeSize; fold b; lia).
  rewrite Hsz at 1. simpl seq. rewrite map_cons, concat_cons.
  rewrite Nat.eqb_refl. unfold RewriteBuffer.standing at 1. simpl.
  fold b. rewrite Nat.eqb_refl, H2, Hin by lia. simpl.
  rewrite append_nil_r.
  rewrite (map_ext_in _ (fun _ => EmptyString)).
  - now rewrite concat_empty, append_nil_r.
  - intros i Hi. apply in_seq in Hi.
    destruct (Nat.eqb_spec i b); [lia|].
    unfold RewriteBuffer.standing. simpl. fold b.
    destruct (Nat.eqb_spec i b); [lia|].
    rewrite H1, H2, Hin by (unfold rangeSize in *; fold b in Hsz |- *; lia).
    reflexivity.
Qed.

Lemma concat_bytes Src :
  String.concat EmptyString (map (RewriteBuffer.byteAt Src) (seq 0 (S (String.length Src)))) = Src.
Proof.
  induction Src as [|c Src IH].
  - reflexivity.
  - change (seq 0 (S (String.length (String c Src))))
      with (0 :: seq 1 (S (String.length Src))).
    rewrite <- seq_shift, map_cons, map_map, concat_cons.
    rewrite (map_ext _ (RewriteBuffer.byteAt Src)) by reflexivity.
    rewrite IH. reflexivity.
Qed.

(** Without edits the buffer reads as the source. *)
Lemma text_init Src : getRewrittenText Src [] = Src.
Proof.
  unfold getRewrittenText, RewriteBuffer.text.
  rewrite (map_ext _ (RewriteBuffer.byteAt Src)) by reflexivity.
  apply concat_bytes.
Qed.

(** ** Operands and names *)



(** The declarations pair the aggregate types with the names allocated for
    them, in order. *)
Lemma declsFrom_names FD Ts :
  forall n,
    declsFrom FD n Ts =
    map (fun p => InsertText (rangeBegin (fdRange FD)) (declText (fst p) (snd p)))
        (combine (filter isAggregate Ts) (namesFrom n Ts)).
Proof.
  induction Ts as [|T Ts IH]; intro n; simpl; [reflexivity|].
  destruct (isAggregate T); simpl; now rewrite IH.
Qed.

Lemma namesFrom_length Ts :
  forall n, List.length (namesFrom n Ts) = countAggregates Ts.
Proof.
  unfold countAggregates.
  induction Ts as [|T Ts IH]; intro n; simpl; [reflexivity|].
  destruct (isAggregate T); simpl; now rewrite IH.
Qed.

(** The names allocated from [n] on are those of the successive values of
    the counter. *)
Lemma namesFrom_seq Ts :
  forall n,
    namesFrom n Ts =
    map (fun k => RewriteUtils.getTmpTransName (uintAdvance k n))
        (seq 0 (countAggregates Ts)).
Proof.
  induction Ts as [|T Ts IH]; intro n; simpl; [reflexivity|].
  rewrite countAggregates_cons. destruct (isAggregate T).
  - simpl. f_equal. rewrite IH, <- seq_shift, map_map.
    apply map_ext. intro k. now rewrite uintAdvance_succ_l.
  - apply IH.
Qed.

Lemma NoDup_map_in {A B} (f : A -> B) (l : list A) :
  (forall x y, In x l -> In y l -> f x = f y -> x = y) ->
  NoDup l -> NoDup (map f l).
Proof.
  intros Hinj Hl. induction Hl as [|a l Ha Hl IH]; simpl; constructor.
  - rewrite in_map_iff. intros (y & E & Hy).
    apply Hinj in E; [subst y; contradiction|now right|now left].
  - apply IH. intros x y Hx Hy. apply Hinj; now right.
Qed.

(** As long as the counter does not come round to a value it had in the
    run, the names differ: at most 2^32 names from a counter in range. *)
Lemma namesFrom_NoDup Ts n :
  (n < uintModulus)%N ->
  (N.of_nat (countAggregates Ts) <= uintModulus)%N ->
  NoDup (namesFrom n Ts).
Proof.
  intros Hn Hc. rewrite namesFrom_seq.
  apply NoDup_map_in; [|apply seq_NoDup].
  intros j k Hj Hk E. apply in_seq in Hj, Hk.
  apply getTmpTransName_inj in E.
  apply (uintAdvance_inj n j k Hn); [lia|lia|exact E].
Qed.

Lemma getMaxNamePostfix_fold Ids :
  forall Max,
    let f := fun MaxPostfix Name =>
               match TransNameQueryWrap.postfixOf Name with
               | Some PostfixV => if N.ltb MaxPostfix PostfixV then PostfixV else MaxPostfix
               | None => MaxPostfix
               end in
    (Max <= fold_left f Ids Max)%N /\
    forall Name m, In Name Ids -> TransNameQueryWrap.postfixOf Name = Some m ->
                   (m <= fold_left f Ids Max)%N.
Proof.
  induction Ids as [|Id Ids IH]; intro Max; simpl.
  - split; [lia|contradiction].
  - set (Max' := match TransNameQueryWrap.postfixOf Id with
                 | Some PostfixV => if N.ltb Max PostfixV then PostfixV else Max
                 | None => Max
                 end).
    destruct (IH Max') as [H1 H2].
    assert (HMax : (Max <= Max')%N).
    { unfold Max'. destruct (TransNameQueryWrap.postfixOf Id) as [v|]; [|lia].
      destruct (N.ltb_spec Max v); lia. }
    split; [lia|].
    intros Name m [->|HIn] Hp.
    + assert (m <= Max')%N; [|lia].
      unfold Max'. rewrite Hp. destruct (N.ltb_spec Max m); lia.
    + eapply H2; eassumption.
Qed.

(** The name query bounds the postfix of every identifier that carries the
    prefix. *)
Lemma getMaxNamePostfix_bound Ids Name m :
  In Name Ids -> TransNameQueryWrap.postfixOf Name = Some m ->
  (m <= TransNameQueryWrap.getMaxNamePostfix Ids)%N.
Proof.
  intros. unfold TransNameQueryWrap.getMaxNamePostfix.
  eapply (proj2 (getMaxNamePostfix_fold Ids 0%N)); eassumption.
Qed.

(** ** The rewrite of a call, in one equation *)

Lemma replaceCallExpr_edits CE FD s :
  replaceCallExpr CE FD s =
  advance
    (declsFrom FD (NamePostfix s) (rewrittenTypes CE) ++
     [replacementOf CE (replacementText (NamePostfix s) CE)])
    (countAggregates (rewrittenTypes CE)) s.
Proof.
  unfold rewrittenTypes, replacementText.
  destruct (callArgs CE) as [|Arg Args] eqn:E.
  - now apply replaceCallExpr_noargs.
  - rewrite replaceCallExpr_args by congruence. reflexivity.
Qed.

Lemma TheRewriter_advance Edits k s :
  TheRewriter (advance Edits k s) = TheRewriter s ++ Edits.
Proof. reflexivity. Qed.

Lemma NamePostfix_advance Edits k s :
  NamePostfix (advance Edits k s) = uintAdvance k (NamePostfix s).
Proof. reflexivity. Qed.

Lemma operandTypes_length CE :
  List.length (operandTypes CE) =
  getNumArgs CE + (if isVoidType (callType CE) then 0 else 1).
Proof.
  unfold operandTypes, getNumArgs. rewrite length_app, length_map.
  destruct (isVoidType (callType CE)); reflexivity.
Qed.

Lemma nth_call pre CE post :
  nth_error (callsOf (pre ++ VisitCE CE :: post)) (List.length (callsOf pre)) = Some CE.
Proof.
  rewrite callsOf_app. rewrite nth_error_app2 by lia.
  now rewrite Nat.sub_diag.
Qed.

(** ** The function recorded with the selection *)

Lemma callsWithLastFD_app cur vs ws :
  callsWithLastFD cur (vs ++ ws) =
  callsWithLastFD cur vs ++ callsWithLastFD (lastFD cur vs) ws.
Proof.
  revert cur. induction vs as [|v vs IH]; intro cur; simpl.
  - reflexivity.
  - destruct v as [FD|CE]; simpl; now rewrite IH.
Qed.

Lemma callsWithLastFD_length cur vs :
  List.length (callsWithLastFD cur vs) = List.length (callsOf vs).
Proof.
  revert cur. induction vs as [|v vs IH]; intro cur; simpl.
  - reflexivity.
  - destruct v as [FD|CE]; simpl; now rewrite IH.
Qed.

(** The pair recorded for a target within range is the pair at that
    position among the calls paired with the function declaration visited
    last. *)
Lemma selection_with_lastFD Counter QueryOnly TU :
  (1 <= Counter <= totalCalls TU)%Z ->
  exists CE FD,
    TheCallExpr (ConsumerInstance (collect Counter QueryOnly TU)) = Some CE /\
    CurrentFD (ConsumerInstance (collect Counter QueryOnly TU)) = Some FD /\
    ValidInstanceNum (ConsumerInstance (collect Counter QueryOnly TU)) = totalCalls TU /\
    nth_error (callsOf (visitsOfTU TU)) (Z.to_nat (Counter - 1)) = Some CE /\
    nth_error (callsWithLastFD None (visitsOfTU TU)) (Z.to_nat (Counter - 1)) =
      Some (CE, Some FD).
Proof.
  intro H.
  destruct (collect_in_range Counter QueryOnly TU H)
    as (pre & CE & post & FD & E & L & F & S).
  exists CE, FD. rewrite S. simpl.
  replace (Z.to_nat (Counter - 1)) with (List.length (callsOf pre)) by lia.
  repeat split.
  - rewrite E. apply nth_call.
  - rewrite E, callsWithLastFD_app, nth_error_app2
      by (rewrite callsWithLastFD_length; lia).
    rewrite callsWithLastFD_length, Nat.sub_diag, F. reflexivity.
Qed.

Lemma existsb_false_Forall {A} (f : A -> bool) l :
  existsb f l = false -> Forall (fun x => f x = false) l.
Proof.
  induction l as [|a l IH]; simpl; intro H; constructor.
  - now apply orb_false_elim in H.
  - apply IH. now apply orb_false_elim in H.
Qed.

(** Below a node without function declaration every call is met with the
    function declaration that was current on entry. *)
Lemma visits_without_FunctionDecl n :
  hasFunctionDecl n = false ->
  forall cur encl,
    lastFD cur (visits n) = cur /\
    callsWithLastFD encl (visits n) = callsWithEnclosing encl n.
Proof.
  induction n as [FD ch IH|CE ch IH|ch IH] using Node_children_ind; intro Hn.
  - discriminate.
  - simpl in Hn. apply existsb_false_Forall in Hn.
    assert (Hch : forall cur encl,
              lastFD cur (flat_map visits ch) = cur /\
              callsWithLastFD encl (flat_map visits ch) =
                flat_map (callsWithEnclosing encl) ch).
    { induction ch as [|c ch IHch]; intros cur encl; simpl; [now split|].
      inversion IH as [|? ? Hc Hr]; inversion Hn as [|? ? Gc Gr]; subst.
      destruct (Hc Gc cur encl) as [A1 A2].
      destruct (IHch Hr Gr cur encl) as [B1 B2].
      rewrite lastFD_app, callsWithLastFD_app, A1, A2.
      destruct (Hc Gc encl encl) as [A3 _]. rewrite A3, B2. now split. }
    intros cur encl. destruct (Hch cur encl) as [B1 B2]. simpl.
    split; [exact B1|now rewrite B2].
  - simpl in Hn. apply existsb_false_Forall in Hn.
    induction ch as [|c ch IHch]; intros cur encl; simpl; [now split|].
    inversion IH as [|? ? Hc Hr]; inversion Hn as [|? ? Gc Gr]; subst.
    destruct (Hc Gc cur encl) as [A1 A2].
    destruct (IHch Hr Gr cur encl) as [B1 B2].
    simpl in B1, B2.
    rewrite lastFD_app, callsWithLastFD_app, A1, A2.
    destruct (Hc Gc encl encl) as [A3 _]. rewrite A3, B2. now split.
Qed.

Lemma children_without_FunctionDecl ch :
  existsb hasFunctionDecl ch = false ->
  forall cur encl,
    lastFD cur (flat_map visits ch) = cur /\
    callsWithLastFD encl (flat_map visits ch) =
      flat_map (callsWithEnclosing encl) ch.
Proof.
  intros H cur encl.
  exact (visits_without_FunctionDecl (OtherNode ch) H cur encl).
Qed.

(** Without nested function declarations, the function declaration visited
    last before a call is the function definition around it. *)
Lemma callsWithLastFD_enclosing TU :
  noNestedFunctionDecl TU = true ->
  callsWithLastFD None (visitsOfTU TU) = enclosingOfTU TU.
Proof.
  unfold noNestedFunctionDecl, visitsOfTU, enclosingOfTU.
  generalize (@None FunctionDecl) at 1 as cur.
  induction (tuDeclGroups TU) as [|D Ds IH]; intros cur H; simpl.
  - reflexivity.
  - simpl in H. apply andb_prop in H. destruct H as [HD HDs].
    rewrite callsWithLastFD_app.
    assert (HG : forall cur,
              callsWithLastFD cur (visitsOfGroup D) =
              flat_map
                (fun I =>
                   match I with
                   | FunctionDeclNode FD _ =>
                       if isThisDeclarationADefinition FD
                       then callsWithEnclosing None I else []
                   | _ => []
                   end) D).
    { clear IH HDs. unfold visitsOfGroup.
      induction D as [|I D IHD]; intro cur'; simpl; [reflexivity|].
      simpl in HD. apply andb_prop in HD. destruct HD as [HI HD].
      rewrite callsWithLastFD_app.
      destruct I as [FD ch|CE ch|ch]; simpl; try apply (IHD HD).
      destruct (isThisDeclarationADefinition FD) eqn:Edef; simpl;
        [|apply (IHD HD)].
      apply negb_true_iff in HI.
      destruct (children_without_FunctionDecl ch HI (Some FD) (Some FD)) as [A1 A2].
      rewrite A1, A2, (IHD HD). reflexivity. }
    rewrite HG, (IH _ HDs). reflexivity.
Qed.

(** Without nested function declarations, the selection is the call at the
    target position together with the function definition around it. *)
Lemma selection_with_enclosing Counter QueryOnly TU :
  noNestedFunctionDecl TU = true ->
  (1 <= Counter <= totalCalls TU)%Z ->
  exists CE FD,
    TheCallExpr (ConsumerInstance (collect Counter QueryOnly TU)) = Some CE /\
    CurrentFD (ConsumerInstance (collect Counter QueryOnly TU)) = Some FD /\
    nth_error (enclosingOfTU TU) (Z.to_nat (Counter - 1)) = Some (CE, Some FD).
Proof.
  intros Hflat H.
  destruct (selection_with_lastFD Counter QueryOnly TU H)
    as (CE & FD & H1 & H2 & _ & _ & H5).
  exists CE, FD. rewrite <- (callsWithLastFD_enclosing TU Hflat). now repeat split.
Qed.

(** ** The run when the recorded function encloses the call *)




(** What the run leaves in the rewriter: the declarations, then the one
    replacement. *)
Lemma rewriter_after_run CE FD (DiagError : bool) s0 :
  TheRewriter (if DiagError
               then setTransError TransInternalError (replaceCallExpr CE FD s0)
               else replaceCallExpr CE FD s0) =
  TheRewriter s0 ++
  declsFrom FD (NamePostfix s0) (rewrittenTypes CE) ++
  [replacementOf CE (replacementText (NamePostfix s0) CE)].
Proof.
  rewrite replaceCallExpr_edits. destruct DiagError; reflexivity.
Qed.


(** ** The claims *)

(** C1, as stated, fails: a call without arguments is replaced by the empty
    text also when its type is not [void].  [h()] of type [struct W] gets
    no declaration and no [(tmp_var_N)]; [bar()] of type [int] does not
    become [(0)]. *)
Lemma C1_counterexample :
  (exists s,
     run 1 false false Examples.tuC = Returned s /\
     TheCallExpr s = Some Examples.callC /\
     getNumArgs Examples.callC = 0 /\
     isVoidType (callType Examples.callC) = false /\
     isStructureType (callType Examples.callC) = true /\
     TheRewriter s = [ReplaceText 47 3 EmptyString] /\
     getRangeText Examples.srcC (TheRewriter s) (callRange Examples.callC) = EmptyString /\
     getRewrittenText Examples.srcC (TheRewriter s) =
       "struct W{int a;};struct W h(void);void f(void){;}") /\
  (exists s,
     run 2 false false Examples.tuN = Returned s /\
     TheCallExpr s = Some Examples.callBar /\
     getNumArgs Examples.callBar = 0 /\
     isVoidType (callType Examples.callBar) = false /\
     isAggregate (callType Examples.callBar) = false /\
     TheRewriter s = [ReplaceText 45 5 EmptyString] /\
     getRangeText Examples.srcN (TheRewriter s) (callRange Examples.callBar) <> "(0)").
Proof.
  split; eexists; repeat split; try (vm_compute; reflexivity).
  vm_compute. discriminate.
Qed.

(** C1, amended: for every selected call expression with zero arguments and
    a non-void return type, scalar or aggregate, the call's source range is
    replaced with the empty text, no temp-variable name is allocated and no
    declaration is emitted. *)
Theorem C1_zero_args_nonvoid_replaced_by_empty_text
    (CE : CallExpr) (FD : FunctionDecl) (s : SimplifyCallExpr) :
  getNumArgs CE = 0 ->
  isVoidType (callType CE) = false ->
  TheRewriter (replaceCallExpr CE FD s) =
    TheRewriter s ++
    [ReplaceText (rangeBegin (callRange CE)) (rangeSize (callRange CE)) EmptyString] /\
  NamePostfix (replaceCallExpr CE FD s) = NamePostfix s.
Proof.
  intros Hn _. unfold getNumArgs in Hn. apply length_zero_iff_nil in Hn.
  rewrite (replaceCallExpr_noargs CE FD s Hn).
  rewrite TheRewriter_advance, NamePostfix_advance. split; reflexivity.
Qed.

Lemma C1_witness :
  getNumArgs Examples.callC = 0 /\
  isVoidType (callType Examples.callC) = false /\
  TheRewriter (replaceCallExpr Examples.callC Examples.fC
                 (mkSimplifyCallExpr 1 1 false TransSuccess
                    (Some Examples.callC) (Some Examples.fC) 1%N [])) =
    [ReplaceText 47 3 EmptyString].
Proof.
  split; [reflexivity|]. split; [reflexivity|].
  apply (C1_zero_args_nonvoid_replaced_by_empty_text Examples.callC Examples.fC
           (mkSimplifyCallExpr 1 1 false TransSuccess
              (Some Examples.callC) (Some Examples.fC) 1%N []));
    reflexivity.
Defined.

(** C2, as stated, fails: [foo(bar())] with [foo] returning [void] has one
    argument and is replaced by [(0)], one operand and no trailing result
    operand; and the call [bar()] of type [int], without arguments, is
    replaced by the empty text although it is not a [void] call. *)
Lemma C2_counterexample :
  (exists s Ops,
     run 1 false false Examples.tuN = Returned s /\
     TheCallExpr s = Some Examples.callFoo /\
     getNumArgs Examples.callFoo = 1 /\
     getRangeText Examples.srcN (TheRewriter s) (callRange Examples.callFoo) = "(0)" /\
     Str.commaOperands "(0)" = Some Ops /\
     List.length Ops <> getNumArgs Examples.callFoo + 1) /\
  (exists s,
     run 2 false false Examples.tuN = Returned s /\
     TheCallExpr s = Some Examples.callBar /\
     isVoidType (callType Examples.callBar) = false /\
     getRangeText Examples.srcN (TheRewriter s) (callRange Examples.callBar) = EmptyString /\
     Str.commaOperands EmptyString = None).
Proof.
  split.
  - eexists. exists ["0"]. repeat split; try (vm_compute; reflexivity).
    vm_compute. discriminate.
  - eexists. repeat split; vm_compute; reflexivity.
Qed.

(** C2, amended: after the rewrite of a call with at least one argument the
    replacement is a parenthesized comma expression with exactly (argument
    count) leading operands, followed by one trailing result operand exactly
    when the return type is not [void]; a call without arguments, [void] or
    not, is replaced by the empty text.  The replacement is the last edit,
    all edits before it are insertions in front of the recorded function,
    and on a fresh buffer the text standing in the call's source range is
    the replacement. *)
Theorem C2_operand_count (CE : CallExpr) (FD : FunctionDecl) (s : SimplifyCallExpr) :
  exists Decls Text,
    TheRewriter (replaceCallExpr CE FD s) =
      TheRewriter s ++ Decls ++
      [ReplaceText (rangeBegin (callRange CE)) (rangeSize (callRange CE)) Text] /\
    Forall (isInsertAt (rangeBegin (fdRange FD))) Decls /\
    match getNumArgs CE with
    | 0 => Text = EmptyString
    | S _ =>
        exists Ops,
          Text = commaExpr Ops /\
          Str.commaOperands Text = Some Ops /\
          List.length Ops =
            getNumArgs CE + (if isVoidType (callType CE) then 0 else 1)
    end /\
    (forall Src,
       TheRewriter s = [] ->
       rangeBegin (callRange CE) < rangeEnd (callRange CE) ->
       rangeBegin (fdRange FD) <= rangeBegin (callRange CE) \/
       rangeEnd (callRange CE) <= rangeBegin (fdRange FD) ->
       getRangeText Src (TheRewriter (replaceCallExpr CE FD s)) (callRange CE) = Text).
Proof.
  exists (declsFrom FD (NamePostfix s) (rewrittenTypes CE)),
         (replacementText (NamePostfix s) CE).
  rewrite replaceCallExpr_edits, TheRewriter_advance.
  split; [reflexivity|]. split; [apply declsFrom_insertions|]. split.
  - unfold replacementText, getNumArgs.
    destruct (callArgs CE) as [|Arg Args] eqn:E; [reflexivity|].
    simpl List.length.
    exists (operandsFrom (NamePostfix s) (operandTypes CE)).
    split; [unfold commaExpr; reflexivity|].
    assert (Hlen : List.length (operandsFrom (NamePostfix s) (operandTypes CE)) =
                   S (List.length Args) +
                   (if isVoidType (callType CE) then 0 else 1)).
    { rewrite operandsFrom_length, operandTypes_length. unfold getNumArgs.
      now rewrite E. }
    split; [|exact Hlen].
    apply commaOperands_commaExpr.
    + intro Hnil. rewrite Hnil in Hlen. simpl in Hlen. lia.
    + apply operandsFrom_noComma.
  - intros Src Hs Hne Hfd. rewrite Hs. simpl app.
    apply (rewrite_range Src FD);
      [apply declsFrom_insertions|assumption|assumption].
Qed.

(** C3 at the input where the code departs from it: scenario A with [foo]
    declared at block scope in front of the call.  The call
    [foo(i, p, s)] is replaced with [(0,0,tmp_var_1,0)], but the
    declaration [struct Z tmp_var_1;] is inserted at the declaration of
    [foo], inside the body of the enclosing function [f], not before [f]:
    the function recorded with the call is the block-scope declaration, as
    for C9. *)
Theorem C3_declaration_inside_the_enclosing_function :
  enclosingOfTU Examples.tuS = [(Examples.callS, Some Examples.fS)] /\
  map exprType (callArgs Examples.callS) =
    [Examples.intTy; Examples.intPtrTy; Examples.structZ] /\
  callType Examples.callS = Examples.intTy /\
  exists s,
    run 1 false false Examples.tuS = Returned s /\
    TheCallExpr s = Some Examples.callS /\
    CurrentFD s = Some Examples.fooS /\
    TheRewriter s =
      [InsertText 48 ("struct Z tmp_var_1;" ++ Str.nl)%string;
       ReplaceText 75 10 "(0,0,tmp_var_1,0)"] /\
    rangeBegin (fdRange Examples.fS) < 48 < rangeEnd (fdRange Examples.fS) /\
    getRewrittenText Examples.srcS (TheRewriter s) =
      ("struct Z{int a;};void f(int i,int*p,struct Z s){struct Z tmp_var_1;" ++ Str.nl ++
       "int foo(int,int*,struct Z);(0,0,tmp_var_1,0);}")%string.
Proof.
  split; [reflexivity|]. split; [reflexivity|]. split; [reflexivity|].
  eexists. split; [vm_compute; reflexivity|].
  repeat split; try (vm_compute; reflexivity); simpl; lia.
Qed.


(** C4 at the input where the code departs from it: in
    [void f(struct S s) { void g(struct S); g(s); }] the operand of the
    struct argument [s] is the fresh name [tmp_var_1] and its declaration
    has the text [struct S tmp_var_1;] with a line feed, as the claim
    says, but [handleOneArgStr] inserts it in front of the function
    recorded with the call, the block-scope declaration of [g]: the
    declaration lands inside the enclosing function [f], not before it.
    The defect is that of C9. *)
Theorem C4_argument_declaration_inside_the_enclosing_function :
  let Arg := mkExpr Examples.structS (mkRange 55 56) in
  let s0 := mkSimplifyCallExpr 1 1 false TransSuccess
              (Some Examples.callG) (Some Examples.gL)
              (nameSeed (tuIdentifiers Examples.tuL)) [] in
  callArgs Examples.callG = [Arg] /\
  isStructureType (exprType Arg) = true /\
  enclosingOfTU Examples.tuL = [(Examples.callG, Some Examples.fL)] /\
  CurrentFD (ConsumerInstance (collect 1 false Examples.tuL)) = Some Examples.gL /\
  handleOneArgStr Examples.gL Arg s0 =
    ("tmp_var_1",
     setTheRewriter [InsertText 36 ("struct S tmp_var_1;" ++ Str.nl)%string]
       (setNamePostfix 2%N s0)) /\
  run 1 false false Examples.tuL =
    Returned (replaceCallExpr Examples.callG Examples.gL s0) /\
  TheRewriter (replaceCallExpr Examples.callG Examples.gL s0) =
    [InsertText 36 ("struct S tmp_var_1;" ++ Str.nl)%string;
     ReplaceText 53 4 "(tmp_var_1)"] /\
  rangeBegin (fdRange Examples.fL) < 36 < rangeEnd (fdRange Examples.fL).
Proof.
  cbv zeta. repeat split; try (vm_compute; reflexivity); simpl; lia.
Qed.

(** C5 (scenario B): for every selected call expression with zero arguments
    and [void] return type, the source range of the call is replaced with
    the empty text and no auxiliary declaration is emitted: the replacement
    is the only edit made and the name counter does not move. *)
Theorem C5_zero_args_void_replaced_by_empty_text
    (CE : CallExpr) (FD : FunctionDecl) (s : SimplifyCallExpr) :
  getNumArgs CE = 0 ->
  isVoidType (callType CE) = true ->
  replaceCallExpr CE FD s =
    setTheRewriter
      (TheRewriter s ++
       [ReplaceText (rangeBegin (callRange CE)) (rangeSize (callRange CE)) EmptyString]) s /\
  NamePostfix (replaceCallExpr CE FD s) = NamePostfix s /\
  filter (fun E => negb (isReplace E)) (TheRewriter (replaceCallExpr CE FD s)) =
    filter (fun E => negb (isReplace E)) (TheRewriter s).
Proof.
  intros Hn _. unfold getNumArgs in Hn. apply length_zero_iff_nil in Hn.
  unfold replaceCallExpr. rewrite Hn.
  unfold RewriteUtils.replaceExpr, setTheRewriter. simpl.
  repeat split. rewrite filter_app. simpl. apply app_nil_r.
Qed.

Lemma C5_witness :
  getNumArgs Examples.callB = 0 /\
  isVoidType (callType Examples.callB) = true /\
  run 1 false false Examples.tuB =
    Returned (mkSimplifyCallExpr 1 1 false TransSuccess
                (Some Examples.callB) (Some Examples.fB) 1%N
                [ReplaceText 26 3 EmptyString]) /\
  replaceCallExpr Examples.callB Examples.fB
    (mkSimplifyCallExpr 1 1 false TransSuccess
       (Some Examples.callB) (Some Examples.fB) 1%N []) =
  mkSimplifyCallExpr 1 1 false TransSuccess
    (Some Examples.callB) (Some Examples.fB) 1%N [ReplaceText 26 3 EmptyString].
Proof.
  split; [reflexivity|]. split; [reflexivity|]. split; [reflexivity|].
  exact (proj1 (C5_zero_args_void_replaced_by_empty_text Examples.callB Examples.fB
                  (mkSimplifyCallExpr 1 1 false TransSuccess
                     (Some Examples.callB) (Some Examples.fB) 1%N [])
                  eq_refl eq_refl)).
Defined.

(** C6 at the input where the code departs from it: a translation unit that
    declares [tmp_var_0] and [tmp_var_4294967295].  The largest postfix in
    use is 4294967295, the largest value of the [unsigned int] counter; one
    past it the counter wraps to 0, so the name generated for the struct
    argument of [g(s)] is [tmp_var_0]: its postfix is not greater than the
    maximum in use, and the name is that of an identifier of the
    translation unit. *)
Theorem C6_counter_wraps_onto_an_existing_name :
  TransNameQueryWrap.getMaxNamePostfix (tuIdentifiers Examples.tuU) = 4294967295%N /\
  nameSeed (tuIdentifiers Examples.tuU) = 0%N /\
  exists s,
    run 1 false false Examples.tuU = Returned s /\
    TheCallExpr s = Some Examples.callU /\
    TheRewriter s =
      [InsertText 72 ("struct S tmp_var_0;" ++ Str.nl)%string;
       ReplaceText 91 4 "(tmp_var_0)"] /\
    NamePostfix s = 1%N /\
    TransNameQueryWrap.postfixOf "tmp_var_0" = Some 0%N /\
    (0 < TransNameQueryWrap.getMaxNamePostfix (tuIdentifiers Examples.tuU))%N /\
    In "tmp_var_0" (tuIdentifiers Examples.tuU).
Proof.
  split; [vm_compute; reflexivity|]. split; [vm_compute; reflexivity|].
  eexists. split; [vm_compute; reflexivity|].
  repeat split; try (vm_compute; reflexivity).
  simpl. now left.
Qed.

(** C7 (scenario D): if the target ordinal exceeds the total number of call
    expressions found in the translation unit, the run ends with the
    no-such-instance error ([TransMaxInstanceError]) and without any buffer
    mutation: no replacement and no insertion is made, and the text of the
    translation unit is unchanged. *)
Theorem C7_selection_out_of_range
    (TU : TranslationUnit) (Counter : Z) (DiagError : bool) :
  (totalCalls TU < Counter)%Z ->
  exists s,
    run Counter false DiagError TU = Returned s /\
    TransError s = TransMaxInstanceError /\
    TheRewriter s = [] /\
    getRewrittenText (tuSource TU) (TheRewriter s) = tuSource TU.
Proof.
  intro H. rewrite (run_out_of_range Counter DiagError TU H).
  eexists. split; [reflexivity|]. simpl.
  repeat split. apply text_init.
Qed.

Lemma C7_witness :
  (totalCalls Examples.tuA < 2)%Z /\
  exists s,
    run 2 false false Examples.tuA = Returned s /\
    TransError s = TransMaxInstanceError /\
    TheRewriter s = [] /\
    getRewrittenText Examples.srcA (TheRewriter s) = Examples.srcA.
Proof.
  assert (H : (totalCalls Examples.tuA < 2)%Z) by (vm_compute; reflexivity).
  split; [exact H|].
  exact (C7_selection_out_of_range Examples.tuA 2 false H).
Defined.




(** C9 at the input where the code departs from it: in
    [void f(struct S s) { void g(struct S); g(s); }] the walk visits the
    block-scope declaration of [g] before the call, so the function
    recorded with the call [g(s)] is the declaration of [g], whereas the
    function that encloses the call is [f]; the temporary is then declared
    inside the body of [f], in front of the declaration of [g].  The count
    and the call recorded are as the claim says. *)
Theorem C9_recorded_function_at_block_scope_declaration :
  let C := ConsumerInstance (collect 1 false Examples.tuL) in
  ValidInstanceNum C = 1%Z /\
  TheCallExpr C = Some Examples.callG /\
  callsOf (visitsOfTU Examples.tuL) = [Examples.callG] /\
  enclosingOfTU Examples.tuL = [(Examples.callG, Some Examples.fL)] /\
  CurrentFD C = Some Examples.gL /\
  Examples.gL <> Examples.fL /\
  exists s,
    run 1 false false Examples.tuL = Returned s /\
    TheRewriter s =
      [InsertText 36 ("struct S tmp_var_1;" ++ Str.nl)%string;
       ReplaceText 53 4 "(tmp_var_1)"] /\
    getRewrittenText Examples.srcL (TheRewriter s) =
      ("struct S{int a;};void f(struct S s){struct S tmp_var_1;" ++ Str.nl ++
       "void g(struct S);(tmp_var_1);}")%string.
Proof.
  cbv zeta. repeat split; try (vm_compute; reflexivity).
  - discriminate.
  - eexists. repeat split; vm_compute; reflexivity.
Qed.

(** C10: whenever the target ordinal is within range (at least 1, the
    ordinals being 1-based, and at most the total count), the call
    expression and the function recorded by the collection phase are both
    non-null, so that neither of the two assertions in front of the rewrite
    fails: the walk starts at function definitions only, and the callback
    for a function declaration comes before the callback for any call
    expression below it, so the first callback of all is one for a function
    declaration. *)
Theorem C10_assertions_hold
    (TU : TranslationUnit) (Counter : Z) (QueryOnly : bool) :
  (1 <= Counter <= totalCalls TU)%Z ->
  let C := ConsumerInstance (collect Counter QueryOnly TU) in
  TheCallExpr C <> None /\
  CurrentFD C <> None /\
  (forall Identifiers DiagError,
     HandleTranslationUnit Identifiers DiagError C <> AssertionFailed) /\
  (forall FD children V,
     exists vs, Traverse (FunctionDeclNode FD children) V =
                (true, fold_left callback (VisitFD FD :: vs) V)) /\
  exists FD vs, visitsOfTU TU = VisitFD FD :: vs.
Proof.
  intros H C.
  destruct (collect_in_range Counter QueryOnly TU H)
    as (pre & CE & post & FD & E & L & F & S).
  fold C in S.
  split; [rewrite S; discriminate|].
  split; [rewrite S; discriminate|].
  split.
  { intros Ids Diag. rewrite S. unfold HandleTranslationUnit. simpl.
    destruct QueryOnly; [discriminate|].
    destruct (Counter >? totalCalls TU)%Z; [discriminate|].
    destruct Diag; discriminate. }
  split.
  { intros FD0 ch V. exists (flat_map visits ch). apply Traverse_visits. }
  destruct (visits_starts_with_FD TU) as [Hnil|Hcons]; [|exact Hcons].
  rewrite Hnil in E. destruct pre; discriminate.
Qed.

Lemma C10_witness :
  (1 <= 1 <= totalCalls Examples.tuA)%Z /\
  TheCallExpr (ConsumerInstance (collect 1 false Examples.tuA)) <> None /\
  CurrentFD (ConsumerInstance (collect 1 false Examples.tuA)) <> None.
Proof.
  assert (H : (1 <= 1 <= totalCalls Examples.tuA)%Z)
    by (vm_compute; split; discriminate).
  split; [exact H|].
  destruct (C10_assertions_hold Examples.tuA 1 false H) as (H1 & H2 & _).
  split; assumption.
Defined.

(** ** Further properties of the collection phase *)

Lemma HandleTopLevelDecls_visits Ds :
  forall V,
    fold_left (fun V D => HandleTopLevelDecl D V) Ds V =
    fold_left callback (flat_map visitsOfGroup Ds) V.
Proof.
  induction Ds as [|D Ds IH]; intro V; simpl.
  - reflexivity.
  - now rewrite fold_left_app, IH, HandleTopLevelDecl_visits.
Qed.

Lemma callsOf_flat_map {A} (f : A -> list Visit) l :
  callsOf (flat_map f l) = flat_map (fun a => callsOf (f a)) l.
Proof.
  induction l as [|a l IH]; simpl; [reflexivity|].
  now rewrite callsOf_app, IH.
Qed.

Lemma length_flat_map_sum {A B} (f : A -> list B) l :
  List.length (flat_map f l) = list_sum (map (fun a => List.length (f a)) l).
Proof.
  induction l as [|a l IH]; simpl; [reflexivity|].
  now rewrite length_app, IH.
Qed.

(** The callbacks for call expressions below a node are as many as the
    call-expression nodes. *)
Lemma callsOf_visits_count n :
  List.length (callsOf (visits n)) = countCallExprs n.
Proof.
  induction n as [FD ch IH|CE ch IH|ch IH] using Node_children_ind;
    simpl visits; simpl countCallExprs;
    [change (callsOf (VisitFD FD :: flat_map visits ch))
       with (callsOf (flat_map visits ch))
    |change (callsOf (VisitCE CE :: flat_map visits ch))
       with (CE :: callsOf (flat_map visits ch)); simpl List.length; f_equal
    |];
    rewrite callsOf_flat_map, length_flat_map_sum; f_equal;
    apply map_ext_Forall; exact IH.
Qed.

Lemma totalCalls_count TU : totalCalls TU = Z.of_nat (countCallExprsTU TU).
Proof.
  unfold totalCalls, countCallExprsTU, visitsOfTU. f_equal.
  rewrite callsOf_flat_map, length_flat_map_sum. f_equal.
  apply map_ext. intro D. unfold visitsOfGroup.
  rewrite callsOf_flat_map, length_flat_map_sum. f_equal.
  apply map_ext. intro I.
  destruct I as [FD ch|CE ch|ch]; try reflexivity.
  simpl isFunctionDefinition.
  destruct (isThisDeclarationADefinition FD); [|reflexivity].
  apply callsOf_visits_count.
Qed.

Lemma totalCalls_nonneg TU : (0 <= totalCalls TU)%Z.
Proof. unfold totalCalls. lia. Qed.

Lemma flat_map_concat {A B} (f : A -> list B) (Ds : list (list A)) :
  flat_map f (List.concat Ds) = flat_map (flat_map f) Ds.
Proof.
  induction Ds as [|D Ds IH]; simpl; [reflexivity|].
  now rewrite flat_map_app, IH.
Qed.

(** X1: in query mode ([QueryInstanceOnly] set) a run only counts: whatever
    the target ordinal, [HandleTranslationUnit] returns at once, with the
    number of call expressions of the function definitions in
    [ValidInstanceNum], without selection error and without any edit, so
    that the text is the source. *)
Theorem X1_query_only_counts_without_edits
    (TU : TranslationUnit) (Counter : Z) (DiagError : bool) :
  exists s,
    run Counter true DiagError TU = Returned s /\
    ValidInstanceNum s = totalCalls TU /\
    TransError s = TransSuccess /\
    TheRewriter s = [] /\
    getRewrittenText (tuSource TU) (TheRewriter s) = tuSource TU.
Proof.
  destruct (collect_state Counter true TU) as (H1 & H2 & H3 & H4 & H5 & H6).
  exists (ConsumerInstance (collect Counter true TU)).
  unfold run, HandleTranslationUnit. rewrite H3.
  repeat split; try assumption.
  rewrite H6. apply text_init.
Qed.

(** X2: no callback of the visitor stops the walk, so a walk from a node
    raises the count by the number of call-expression nodes at or below it,
    calls nested in the arguments of other calls included; after the
    collection phase the count is the number of call-expression nodes below
    the function definitions of the translation unit, whatever the target
    ordinal. *)
Theorem X2_count_is_number_of_call_nodes
    (TU : TranslationUnit) (Counter : Z) (QueryOnly : bool)
    (n : Node) (V : SimplifyCallExprVisitor) :
  fst (Traverse n V) = true /\
  ValidInstanceNum (ConsumerInstance (snd (Traverse n V))) =
    (ValidInstanceNum (ConsumerInstance V) + Z.of_nat (countCallExprs n))%Z /\
  ValidInstanceNum (ConsumerInstance (collect Counter QueryOnly TU)) =
    Z.of_nat (countCallExprsTU TU).
Proof.
  rewrite Traverse_visits. simpl fst. simpl snd.
  split; [reflexivity|]. split.
  - now rewrite collect_count, callsOf_visits_count.
  - destruct (collect_state Counter QueryOnly TU) as (_ & H2 & _).
    rewrite H2. apply totalCalls_count.
Qed.

(** X3: declarations that are not function definitions are not walked: a
    declaration group without function definition leaves the visitor and
    the transformation object as they are, call expressions in it (in the
    initializer of a global variable, say) are neither counted nor
    selected; a translation unit without function definition has no
    instance, and every target ordinal from 1 on ends in
    [TransMaxInstanceError] without edit. *)
Theorem X3_only_function_definitions_are_walked
    (TU : TranslationUnit) (Counter : Z) (DiagError : bool) :
  forallb (forallb (fun I => negb (isFunctionDefinition I))) (tuDeclGroups TU) = true ->
  (forall D V,
     In D (tuDeclGroups TU) -> HandleTopLevelDecl D V = V) /\
  totalCalls TU = 0%Z /\
  ((1 <= Counter)%Z ->
   exists s,
     run Counter false DiagError TU = Returned s /\
     TransError s = TransMaxInstanceError /\
     TheRewriter s = []).
Proof.
  intro H.
  assert (HD : forall D, forallb (fun I => negb (isFunctionDefinition I)) D = true ->
                         visitsOfGroup D = []).
  { unfold visitsOfGroup. induction D as [|I D IH]; simpl; intro HD; [reflexivity|].
    apply andb_prop in HD. destruct HD as [HI HD]. rewrite (IH HD), app_nil_r.
    destruct I as [FD ch|CE ch|ch]; try reflexivity.
    simpl in HI. apply negb_true_iff in HI. now rewrite HI. }
  assert (HT : totalCalls TU = 0%Z).
  { unfold totalCalls, visitsOfTU.
    induction (tuDeclGroups TU) as [|D Ds IH]; [reflexivity|].
    simpl in H. apply andb_prop in H. destruct H as [H1 H2].
    simpl. rewrite (HD D H1). simpl. exact (IH H2). }
  split; [|split].
  - intros D V HIn. rewrite HandleTopLevelDecl_visits, HD; [reflexivity|].
    rewrite forallb_forall in H. exact (H D HIn).
  - exact HT.
  - intro HK. rewrite run_out_of_range by lia.
    eexists. repeat split.
Qed.

Lemma X3_witness :
  forallb (forallb (fun I => negb (isFunctionDefinition I)))
    [[OtherNode [CallExprNode Examples.callBar [OtherNode []]]];
     [FunctionDeclNode (mkFunctionDecl "bar" false (mkRange 0 13)) []]] = true /\
  exists s,
    run 1 false false
      (mkTU "int bar(void);int x=bar();"
         [[OtherNode [CallExprNode Examples.callBar [OtherNode []]]];
          [FunctionDeclNode (mkFunctionDecl "bar" false (mkRange 0 13)) []]]
         ["bar"; "x"]) = Returned s /\
    TransError s = TransMaxInstanceError /\
    TheRewriter s = [].
Proof.
  split; [reflexivity|].
  exact (proj2 (proj2
           (X3_only_function_definitions_are_walked
              (mkTU "int bar(void);int x=bar();"
                 [[OtherNode [CallExprNode Examples.callBar [OtherNode []]]];
                  [FunctionDeclNode (mkFunctionDecl "bar" false (mkRange 0 13)) []]]
                 ["bar"; "x"])
              1 false eq_refl))
         (Z.le_refl 1)).
Defined.

(** X4: for a target ordinal within range the rewrite is carried out
    whether or not the diagnostics engine reports an error afterwards: the
    report changes nothing but [TransError], [TransInternalError] instead
    of [TransSuccess]; the edits and every other field are the same. *)
Theorem X4_diagnostics_only_set_the_error
    (TU : TranslationUnit) (Counter : Z) :
  (1 <= Counter <= totalCalls TU)%Z ->
  exists s,
    run Counter false false TU = Returned s /\
    TransError s = TransSuccess /\
    run Counter false true TU = Returned (setTransError TransInternalError s) /\
    TheRewriter (setTransError TransInternalError s) = TheRewriter s /\
    TheRewriter s <> [].
Proof.
  intro H.
  destruct (collect_in_range Counter false TU H)
    as (pre & CE & post & FD & _ & _ & _ & S).
  exists (replaceCallExpr CE FD
            (mkSimplifyCallExpr Counter (totalCalls TU) false TransSuccess
               (Some CE) (Some FD) (nameSeed (tuIdentifiers TU)) [])).
  unfold run. rewrite S. unfold HandleTranslationUnit. simpl.
  replace (Counter >? totalCalls TU)%Z with false
    by (symmetry; rewrite Z.gtb_ltb; apply Z.ltb_ge; lia).
  split; [reflexivity|].
  split; [rewrite replaceCallExpr_edits; reflexivity|].
  split; [reflexivity|].
  split; [reflexivity|].
  rewrite replaceCallExpr_edits, TheRewriter_advance. simpl.
  destruct (declsFrom FD _ _); discriminate.
Qed.

Lemma X4_witness :
  (1 <= 1 <= totalCalls Examples.tuA)%Z /\
  exists s,
    run 1 false false Examples.tuA = Returned s /\
    TransError s = TransSuccess /\
    run 1 false true Examples.tuA = Returned (setTransError TransInternalError s).
Proof.
  assert (H : (1 <= 1 <= totalCalls Examples.tuA)%Z)
    by (vm_compute; split; discriminate).
  split; [exact H|].
  destruct (X4_diagnostics_only_set_the_error Examples.tuA 1 H)
    as (s & H1 & H2 & H3 & _).
  exists s. repeat split; assumption.
Defined.

(** X5: a target ordinal below 1 is never reached by the count, which
    starts at 1 for the first call: nothing is selected, the target does
    not exceed the count either, and in transformation mode
    [HandleTranslationUnit] runs into its first assertion
    ([TheCallExpr] is null) before any edit. *)
Theorem X5_target_below_one_fails_the_assertion
    (TU : TranslationUnit) (Counter : Z) (DiagError : bool) :
  (Counter <= 0)%Z ->
  TheCallExpr (ConsumerInstance (collect Counter false TU)) = None /\
  CurrentFD (ConsumerInstance (collect Counter false TU)) = None /\
  run Counter false DiagError TU = AssertionFailed.
Proof.
  intro H.
  destruct (collect_state Counter false TU) as (H1 & H2 & H3 & H4 & H5 & H6).
  pose proof (totalCalls_nonneg TU) as Hn.
  assert (HS : TheCallExpr (ConsumerInstance (collect Counter false TU)) = None /\
               CurrentFD (ConsumerInstance (collect Counter false TU)) = None).
  { rewrite collect_visits.
    destruct (collect_keeps_selection (visitsOfTU TU) (Initialize Counter false))
      as [S1 S2]; [left; simpl; lia|].
    now split. }
  destruct HS as [S1 S2]. split; [exact S1|]. split; [exact S2|].
  unfold run, HandleTranslationUnit. rewrite H3, H1, H2, S1.
  replace (Counter >? totalCalls TU)%Z with false
    by (symmetry; rewrite Z.gtb_ltb; apply Z.ltb_ge; lia).
  reflexivity.
Qed.

Lemma X5_witness :
  (0 <= 0)%Z /\ run 0 false false Examples.tuA = AssertionFailed.
Proof.
  split; [apply Z.le_refl|].
  exact (proj2 (proj2 (X5_target_below_one_fails_the_assertion
                         Examples.tuA 0 false (Z.le_refl 0)))).
Defined.

(** X6: for a target ordinal K within range the walk goes on to the end
    (the count ends at the total), the call recorded is the K-th call
    expression in the order of the callbacks, and the function recorded
    with it is the function declaration whose callback came last before
    that of the call; no later callback changes the record. *)
Theorem X6_selection_is_the_kth_call
    (TU : TranslationUnit) (Counter : Z) (QueryOnly : bool) :
  (1 <= Counter <= totalCalls TU)%Z ->
  let C := ConsumerInstance (collect Counter QueryOnly TU) in
  exists CE FD,
    TheCallExpr C = Some CE /\
    CurrentFD C = Some FD /\
    ValidInstanceNum C = totalCalls TU /\
    nth_error (callsOf (visitsOfTU TU)) (Z.to_nat (Counter - 1)) = Some CE /\
    nth_error (callsWithLastFD None (visitsOfTU TU)) (Z.to_nat (Counter - 1)) =
      Some (CE, Some FD).
Proof.
  intros H C. exact (selection_with_lastFD Counter QueryOnly TU H).
Qed.

Lemma X6_witness :
  (1 <= 2 <= totalCalls Examples.tuN)%Z /\
  exists CE FD,
    TheCallExpr (ConsumerInstance (collect 2 false Examples.tuN)) = Some CE /\
    CurrentFD (ConsumerInstance (collect 2 false Examples.tuN)) = Some FD /\
    nth_error (callsOf (visitsOfTU Examples.tuN)) 1 = Some CE.
Proof.
  assert (H : (1 <= 2 <= totalCalls Examples.tuN)%Z)
    by (vm_compute; split; discriminate).
  split; [exact H|].
  destruct (X6_selection_is_the_kth_call Examples.tuN 2 false H)
    as (CE & FD & H1 & H2 & _ & H4 & _).
  exists CE, FD. repeat split; assumption.
Defined.

(** X7: when no function declaration is nested in a function definition of
    the translation unit, the function recorded with the selected call is
    the function definition that encloses the call: the selection is the
    K-th pair of the calls paired with their enclosing definitions. *)
Theorem X7_recorded_function_encloses_the_call
    (TU : TranslationUnit) (Counter : Z) (QueryOnly : bool) :
  noNestedFunctionDecl TU = true ->
  (1 <= Counter <= totalCalls TU)%Z ->
  let C := ConsumerInstance (collect Counter QueryOnly TU) in
  exists CE FD,
    TheCallExpr C = Some CE /\
    CurrentFD C = Some FD /\
    isThisDeclarationADefinition FD = true /\
    nth_error (enclosingOfTU TU) (Z.to_nat (Counter - 1)) = Some (CE, Some FD).
Proof.
  intros Hflat H C.
  destruct (selection_with_enclosing Counter QueryOnly TU Hflat H)
    as (CE & FD & H1 & H2 & H3).
  exists CE, FD. repeat split; try assumption.
  apply nth_error_In in H3. clear - H3.
  unfold enclosingOfTU in H3.
  apply in_flat_map in H3. destruct H3 as (D & _ & H3).
  apply in_flat_map in H3. destruct H3 as (I & _ & H3).
  destruct I as [FD0 ch|CE0 ch|ch]; try contradiction.
  destruct (isThisDeclarationADefinition FD0) eqn:E0; [|contradiction].
  assert (G : forall n encl,
            (forall F, encl = Some F -> isThisDeclarationADefinition F = true) ->
            forall p, In p (callsWithEnclosing encl n) ->
                      forall F, snd p = Some F -> isThisDeclarationADefinition F = true).
  { clear. induction n as [FD ch IH|CE ch IH|ch IH] using Node_children_ind;
      intros encl Hencl p Hp F HF; simpl in Hp.
    - apply in_flat_map in Hp. destruct Hp as (c & Hc & Hp).
      rewrite Forall_forall in IH.
      refine (IH c Hc _ _ p Hp F HF).
      intros F' HF'. destruct (isThisDeclarationADefinition FD) eqn:E.
      + injection HF' as <-. exact E.
      + now apply Hencl.
    - destruct Hp as [<-|Hp]; [now apply Hencl|].
      apply in_flat_map in Hp. destruct Hp as (c & Hc & Hp).
      rewrite Forall_forall in IH. exact (IH c Hc encl Hencl p Hp F HF).
    - apply in_flat_map in Hp. destruct Hp as (c & Hc & Hp).
      rewrite Forall_forall in IH. exact (IH c Hc encl Hencl p Hp F HF). }
  refine (G _ None _ _ H3 FD eq_refl). discriminate.
Qed.

Lemma X7_witness :
  noNestedFunctionDecl Examples.tuA = true /\
  (1 <= 1 <= totalCalls Examples.tuA)%Z /\
  exists CE FD,
    TheCallExpr (ConsumerInstance (collect 1 false Examples.tuA)) = Some CE /\
    CurrentFD (ConsumerInstance (collect 1 false Examples.tuA)) = Some FD /\
    nth_error (enclosingOfTU Examples.tuA) 0 = Some (CE, Some FD).
Proof.
  assert (H : (1 <= 1 <= totalCalls Examples.tuA)%Z)
    by (vm_compute; split; discriminate).
  split; [reflexivity|]. split; [exact H|].
  destruct (X7_recorded_function_encloses_the_call Examples.tuA 1 false eq_refl H)
    as (CE & FD & H1 & H2 & _ & H4).
  exists CE, FD. repeat split; assumption.
Defined.

(** X8: the ordinals of the calls are stable under appended declarations:
    for a target ordinal that does not exceed the count reached on the
    declaration groups [Ds1], walking further groups [Ds2] after them only
    raises the count, by the number of calls of [Ds2]; the call and the
    function recorded stay those recorded on [Ds1] alone. *)
Theorem X8_selection_stable_under_appended_declarations
    (Src : string) (Ids : list string) (Ds1 Ds2 : list DeclGroupRef)
    (Counter : Z) (QueryOnly : bool) :
  (Counter <= totalCalls (mkTU Src Ds1 Ids))%Z ->
  let C1 := ConsumerInstance (collect Counter QueryOnly (mkTU Src Ds1 Ids)) in
  let C := ConsumerInstance (collect Counter QueryOnly (mkTU Src (Ds1 ++ Ds2) Ids)) in
  TheCallExpr C = TheCallExpr C1 /\
  CurrentFD C = CurrentFD C1 /\
  ValidInstanceNum C =
    (ValidInstanceNum C1 + totalCalls (mkTU Src Ds2 Ids))%Z.
Proof.
  intros H C1 C.
  destruct (collect_state Counter QueryOnly (mkTU Src Ds1 Ids)) as (H1 & H2 & _).
  fold C1 in H1, H2.
  assert (E : C = ConsumerInstance
                    (fold_left callback (flat_map visitsOfGroup Ds2)
                       (collect Counter QueryOnly (mkTU Src Ds1 Ids)))).
  { unfold C, collect. simpl tuDeclGroups.
    now rewrite fold_left_app, (HandleTopLevelDecls_visits Ds2). }
  rewrite E.
  destruct (collect_keeps_selection (flat_map visitsOfGroup Ds2)
              (collect Counter QueryOnly (mkTU Src Ds1 Ids))) as [S1 S2].
  { left. fold C1. lia. }
  split; [exact S1|]. split; [exact S2|].
  rewrite collect_count. reflexivity.
Qed.

Lemma X8_witness :
  (1 <= totalCalls (mkTU Examples.srcN (tuDeclGroups Examples.tuN) []))%Z /\
  TheCallExpr
    (ConsumerInstance
       (collect 1 false
          (mkTU Examples.srcN
             (tuDeclGroups Examples.tuN ++ tuDeclGroups Examples.tuA) []))) =
  Some Examples.callFoo.
Proof.
  assert (H : (1 <= totalCalls (mkTU Examples.srcN (tuDeclGroups Examples.tuN) []))%Z)
    by (vm_compute; discriminate).
  split; [exact H|].
  exact (proj1 (X8_selection_stable_under_appended_declarations
                  Examples.srcN [] (tuDeclGroups Examples.tuN)
                  (tuDeclGroups Examples.tuA) 1 false H)).
Defined.

(** X9: the way the parser groups the top-level declarations does not
    matter: a run on the declaration groups one after the other is the run
    on the one group of all the declarations in order. *)
Theorem X9_grouping_of_declarations_is_irrelevant
    (TU : TranslationUnit) (Counter : Z) (QueryOnly DiagError : bool) :
  collect Counter QueryOnly TU =
    HandleTopLevelDecl (List.concat (tuDeclGroups TU)) (Initialize Counter QueryOnly) /\
  run Counter QueryOnly DiagError TU =
    run Counter QueryOnly DiagError
      (mkTU (tuSource TU) [List.concat (tuDeclGroups TU)] (tuIdentifiers TU)).
Proof.
  assert (E : collect Counter QueryOnly TU =
              HandleTopLevelDecl (List.concat (tuDeclGroups TU))
                (Initialize Counter QueryOnly)).
  { rewrite collect_visits, HandleTopLevelDecl_visits. unfold visitsOfTU.
    unfold visitsOfGroup at 2. now rewrite flat_map_concat. }
  split; [exact E|].
  unfold run. rewrite E. reflexivity.
Qed.

(** X13: a call expression is counted before the calls in its callee and
    arguments: when the count is one short of the target on entry to a call
    node, the walk of that node records this call, with the function
    declaration current on entry, and nothing below the node changes the
    record. *)
Theorem X13_outer_call_is_selected_before_nested_calls
    (CE : CallExpr) (children : list Node) (V : SimplifyCallExprVisitor) :
  TransformationCounter (ConsumerInstance V) =
    (ValidInstanceNum (ConsumerInstance V) + 1)%Z ->
  let V' := snd (Traverse (CallExprNode CE children) V) in
  TheCallExpr (ConsumerInstance V') = Some CE /\
  CurrentFD (ConsumerInstance V') = VisitorCurrentFD V /\
  ValidInstanceNum (ConsumerInstance V') =
    (TransformationCounter (ConsumerInstance V) +
     Z.of_nat (list_sum (map countCallExprs children)))%Z.
Proof.
  intros H V'. unfold V'. rewrite Traverse_visits. simpl snd.
  change (visits (CallExprNode CE children))
    with (VisitCE CE :: flat_map visits children).
  change (fold_left callback (VisitCE CE :: flat_map visits children) V)
    with (fold_left callback (flat_map visits children) (callback V (VisitCE CE))).
  assert (Hcb : callback V (VisitCE CE) =
                mkVisitor (setSelection (Some CE) (VisitorCurrentFD V)
                             (setValidInstanceNum
                                (ValidInstanceNum (ConsumerInstance V) + 1)
                                (ConsumerInstance V)))
                          (VisitorCurrentFD V)).
  { simpl callback. unfold VisitCallExpr. simpl.
    rewrite (proj2 (Z.eqb_eq _ _) H). reflexivity. }
  change (snd (VisitCallExpr CE V)) with (callback V (VisitCE CE)).
  rewrite Hcb.
  destruct (collect_keeps_selection (flat_map visits children)
              (mkVisitor (setSelection (Some CE) (VisitorCurrentFD V)
                            (setValidInstanceNum
                               (ValidInstanceNum (ConsumerInstance V) + 1)
                               (ConsumerInstance V)))
                         (VisitorCurrentFD V))) as [S1 S2].
  { left. simpl. lia. }
  split; [exact S1|]. split; [exact S2|].
  rewrite collect_count. simpl ValidInstanceNum. rewrite H.
  rewrite callsOf_flat_map, length_flat_map_sum. do 3 f_equal.
  apply map_ext. intro n. apply callsOf_visits_count.
Qed.

Lemma X13_witness :
  TransformationCounter (ConsumerInstance (Initialize 1 false)) = (0 + 1)%Z /\
  TheCallExpr
    (ConsumerInstance
       (snd (Traverse
               (CallExprNode Examples.callFoo
                  [OtherNode []; CallExprNode Examples.callBar [OtherNode []]])
               (Initialize 1 false)))) = Some Examples.callFoo.
Proof.
  split; [reflexivity|].
  exact (proj1 (X13_outer_call_is_selected_before_nested_calls
                  Examples.callFoo
                  [OtherNode []; CallExprNode Examples.callBar [OtherNode []]]
                  (Initialize 1 false) eq_refl)).
Defined.

(** ** Further properties of the rewrite *)

Lemma getTmpTransName_not_zero n :
  isTempOperand (RewriteUtils.getTmpTransName n) = true.
Proof. reflexivity. Qed.

Lemma operandsFrom_temp_operands Ts :
  forall n, filter isTempOperand (operandsFrom n Ts) = namesFrom n Ts.
Proof.
  induction Ts as [|T Ts IH]; intro n; simpl; [reflexivity|].
  destruct (isAggregate T).
  - change (filter isTempOperand
              (RewriteUtils.getTmpTransName n :: operandsFrom (uintWrap (n + 1)) Ts))
      with (if isTempOperand (RewriteUtils.getTmpTransName n)
            then RewriteUtils.getTmpTransName n
                   :: filter isTempOperand (operandsFrom (uintWrap (n + 1)) Ts)
            else filter isTempOperand (operandsFrom (uintWrap (n + 1)) Ts)).
    rewrite getTmpTransName_not_zero, IH. reflexivity.
  - change (filter isTempOperand ("0" :: operandsFrom n Ts))
      with (filter isTempOperand (operandsFrom n Ts)).
    apply IH.
Qed.

Lemma operandsFrom_zero_or_name Ts :
  forall n, Forall (fun o => o = "0" \/ In o (namesFrom n Ts)) (operandsFrom n Ts).
Proof.
  induction Ts as [|T Ts IH]; intro n; simpl; [constructor|].
  destruct (isAggregate T).
  - constructor; [right; now left|].
    eapply Forall_impl; [|apply IH]. simpl. intros o [Ho|Ho]; [now left|right; now right].
  - constructor; [now left|apply IH].
Qed.

Lemma isVoidType_not_aggregate T : isVoidType T = true -> isAggregate T = false.
Proof.
  unfold isVoidType, isAggregate, isUnionType, isStructureType.
  destruct (typeClass T); intro H; try discriminate; reflexivity.
Qed.

(** The struct and union types among the operand types are those among the
    argument types and the type of the call: a [void] call adds none. *)
Lemma aggregates_of_operandTypes CE :
  filter isAggregate (operandTypes CE) =
  filter isAggregate (map exprType (callArgs CE) ++ [callType CE]).
Proof.
  unfold operandTypes. rewrite !filter_app. f_equal.
  destruct (isVoidType (callType CE)) eqn:E; [|reflexivity].
  simpl. now rewrite (isVoidType_not_aggregate _ E).
Qed.

Lemma aggregates_of_rewrittenTypes CE :
  filter isAggregate (rewrittenTypes CE) =
  match callArgs CE with
  | [] => []
  | _ :: _ => filter isAggregate (map exprType (callArgs CE) ++ [callType CE])
  end.
Proof.
  pose proof (aggregates_of_operandTypes CE) as H.
  unfold rewrittenTypes. destruct (callArgs CE); [reflexivity|exact H].
Qed.

Lemma countAggregates_rewrittenTypes_le CE :
  countAggregates (rewrittenTypes CE) <= getNumArgs CE + 1.
Proof.
  unfold countAggregates.
  eapply Nat.le_trans; [apply filter_length_le|].
  unfold rewrittenTypes.
  destruct (callArgs CE) eqn:E; [simpl; lia|].
  rewrite operandTypes_length.
  destruct (isVoidType (callType CE)); lia.
Qed.

(** X10: the trailing result operand of a call with arguments.  After the
    operands and declarations of the arguments, which depend on the
    argument types and the counter only, not on the type of the call: a
    [void] call gets nothing more; a call of struct or union type gets, as
    last operand, the temp name made from the counter as the arguments left
    it, and as last declaration, after those of the arguments, the
    declaration of that name with the type of the call, and the counter
    moves on by one more, in [unsigned int] arithmetic; any other call gets
    the last operand [0] and no declaration. *)
Theorem X10_trailing_result_operand
    (CE : CallExpr) (FD : FunctionDecl) (s : SimplifyCallExpr) :
  callArgs CE <> [] ->
  let ArgTypes := map exprType (callArgs CE) in
  let n := uintAdvance (countAggregates ArgTypes) (NamePostfix s) in
  let RV := callType CE in
  let RVName := RewriteUtils.getTmpTransName n in
  let Replace := ReplaceText (rangeBegin (callRange CE)) (rangeSize (callRange CE)) in
  exists ArgOps ArgDecls Text,
    ArgOps = operandsFrom (NamePostfix s) ArgTypes /\
    ArgDecls = declsFrom FD (NamePostfix s) ArgTypes /\
    List.length ArgOps = getNumArgs CE /\
    List.length ArgDecls = List.length (filter isAggregate ArgTypes) /\
    Forall (isInsertAt (rangeBegin (fdRange FD))) ArgDecls /\
    if isVoidType RV then
      TheRewriter (replaceCallExpr CE FD s) =
        TheRewriter s ++ ArgDecls ++ [Replace Text] /\
      Str.commaOperands Text = Some ArgOps /\
      NamePostfix (replaceCallExpr CE FD s) = n
    else if isUnionType RV || isStructureType RV then
      TheRewriter (replaceCallExpr CE FD s) =
        TheRewriter s ++ ArgDecls ++
        [InsertText (rangeBegin (fdRange FD))
           (typeSpelling RV ++ " " ++ RVName ++ ";" ++ Str.nl)%string;
         Replace Text] /\
      Str.commaOperands Text = Some (ArgOps ++ [RVName]) /\
      NamePostfix (replaceCallExpr CE FD s) = uintWrap (n + 1)
    else
      TheRewriter (replaceCallExpr CE FD s) =
        TheRewriter s ++ ArgDecls ++ [Replace Text] /\
      Str.commaOperands Text = Some (ArgOps ++ ["0"]) /\
      NamePostfix (replaceCallExpr CE FD s) = n.
Proof.
  intros Hne ArgTypes n RV RVName Replace.
  exists (operandsFrom (NamePostfix s) ArgTypes),
         (declsFrom FD (NamePostfix s) ArgTypes),
         (commaExpr (operandsFrom (NamePostfix s) (operandTypes CE))).
  split; [reflexivity|]. split; [reflexivity|].
  split; [rewrite operandsFrom_length; apply length_map|].
  split; [apply declsFrom_length|].
  split; [apply declsFrom_insertions|].
  rewrite replaceCallExpr_args by assumption.
  rewrite TheRewriter_advance, NamePostfix_advance.
  assert (Hops : operandsFrom (NamePostfix s) (operandTypes CE) <> []).
  { intro E. apply (f_equal (@List.length string)) in E.
    rewrite operandsFrom_length, operandTypes_length in E. unfold getNumArgs in E.
    destruct (callArgs CE); [congruence|simpl in E; lia]. }
  assert (Hparse : Str.commaOperands
                     (commaExpr (operandsFrom (NamePostfix s) (operandTypes CE))) =
                   Some (operandsFrom (NamePostfix s) (operandTypes CE)))
    by (apply commaOperands_commaExpr; [exact Hops|apply operandsFrom_noComma]).
  rewrite Hparse. clear Hparse Hops.
  unfold operandTypes. fold ArgTypes RV.
  rewrite operandsFrom_app, declsFrom_app, countAggregates_app.
  rewrite <- uintAdvance_add. fold n.
  destruct (isVoidType RV) eqn:Hvoid.
  - simpl. rewrite !app_nil_r. repeat split.
  - fold (isAggregate RV). simpl operandsFrom. simpl declsFrom.
    rewrite (countAggregates_cons RV []), countAggregates_nil.
    destruct (isAggregate RV).
    + rewrite <- app_assoc. repeat split.
    + rewrite app_nil_r. repeat split.
Qed.

Lemma X10_witness :
  callArgs Examples.callA <> [] /\
  exists ArgOps ArgDecls Text,
    List.length ArgOps = 3 /\
    List.length ArgDecls = 1 /\
    TheRewriter (replaceCallExpr Examples.callA Examples.fA
                   (mkSimplifyCallExpr 1 1 false TransSuccess
                      (Some Examples.callA) (Some Examples.fA) 1%N [])) =
      [] ++ ArgDecls ++ [ReplaceText 75 10 Text] /\
    Str.commaOperands Text = Some (ArgOps ++ ["0"]).
Proof.
  assert (H : callArgs Examples.callA <> []) by discriminate.
  split; [exact H|].
  destruct (X10_trailing_result_operand Examples.callA Examples.fA
              (mkSimplifyCallExpr 1 1 false TransSuccess
                 (Some Examples.callA) (Some Examples.fA) 1%N []) H)
    as (ArgOps & ArgDecls & Text & _ & _ & H1 & H2 & _ & H3 & H4 & _).
  exists ArgOps, ArgDecls, Text. repeat split; assumption.
Defined.

(** X11: the temporaries used are the temporaries declared.  For a counter
    and an argument count that an [unsigned int] holds: the declarations
    inserted are those of the struct and union types among the argument
    types and the type of the call, in that order (none for a call without
    arguments), each with the name made from the next value of the
    counter; these names are pairwise distinct; the operands of the
    replacement are the literal [0] or one of these names, and the names
    among the operands, in order, are exactly the names declared. *)
Theorem X11_temporaries_used_are_declared
    (CE : CallExpr) (FD : FunctionDecl) (s : SimplifyCallExpr) :
  (NamePostfix s < uintModulus)%N ->
  (N.of_nat (getNumArgs CE) < uintModulus)%N ->
  let Types :=
    match callArgs CE with
    | [] => []
    | _ :: _ => filter isAggregate (map exprType (callArgs CE) ++ [callType CE])
    end in
  let Names :=
    map (fun k => RewriteUtils.getTmpTransName (uintAdvance k (NamePostfix s)))
        (seq 0 (List.length Types)) in
  exists Ops Text,
    TheRewriter (replaceCallExpr CE FD s) =
      TheRewriter s ++
      map (fun p => InsertText (rangeBegin (fdRange FD))
                      (typeSpelling (fst p) ++ " " ++ snd p ++ ";" ++ Str.nl)%string)
          (combine Types Names) ++
      [ReplaceText (rangeBegin (callRange CE)) (rangeSize (callRange CE)) Text] /\
    NoDup Names /\
    filter isTempOperand Ops = Names /\
    Forall (fun o => o = "0" \/ In o Names) Ops /\
    match callArgs CE with
    | [] => Text = EmptyString /\ Ops = []
    | _ :: _ =>
        Text = commaExpr Ops /\ Str.commaOperands Text = Some Ops /\
        List.length Ops =
          getNumArgs CE + (if isVoidType (callType CE) then 0 else 1)
    end.
Proof.
  intros Hn Hargs Types Names.
  assert (HT : Types = filter isAggregate (rewrittenTypes CE))
    by (symmetry; apply aggregates_of_rewrittenTypes).
  assert (HN : Names = namesFrom (NamePostfix s) (rewrittenTypes CE)).
  { unfold Names. rewrite namesFrom_seq, HT. reflexivity. }
  exists (operandsFrom (NamePostfix s) (rewrittenTypes CE)),
         (replacementText (NamePostfix s) CE).
  rewrite HN, HT.
  split.
  { rewrite replaceCallExpr_edits, TheRewriter_advance, declsFrom_names.
    reflexivity. }
  split.
  { apply namesFrom_NoDup; [exact Hn|].
    pose proof (countAggregates_rewrittenTypes_le CE).
    unfold uintModulus in *. lia. }
  split; [apply operandsFrom_temp_operands|].
  split; [apply operandsFrom_zero_or_name|].
  unfold rewrittenTypes, replacementText.
  destruct (callArgs CE) as [|Arg Args] eqn:E; [now split|].
  split; [reflexivity|].
  assert (Hlen : List.length (operandsFrom (NamePostfix s) (operandTypes CE)) =
                 getNumArgs CE + (if isVoidType (callType CE) then 0 else 1))
    by (rewrite operandsFrom_length; apply operandTypes_length).
  split; [|exact Hlen].
  apply commaOperands_commaExpr; [|apply operandsFrom_noComma].
  intro Hnil. rewrite Hnil in Hlen. unfold getNumArgs in Hlen.
  rewrite E in Hlen. simpl in Hlen. lia.
Qed.

Lemma X11_witness :
  (1 < uintModulus)%N /\
  (N.of_nat (getNumArgs Examples.callA) < uintModulus)%N /\
  exists Ops Text,
    TheRewriter (replaceCallExpr Examples.callA Examples.fA
                   (mkSimplifyCallExpr 1 1 false TransSuccess
                      (Some Examples.callA) (Some Examples.fA) 1%N [])) =
      [InsertText 44 ("struct Z tmp_var_1;" ++ Str.nl)%string;
       ReplaceText 75 10 Text] /\
    filter isTempOperand Ops = ["tmp_var_1"] /\
    Str.commaOperands Text = Some Ops.
Proof.
  assert (H1 : (1 < uintModulus)%N) by reflexivity.
  assert (H2 : (N.of_nat (getNumArgs Examples.callA) < uintModulus)%N) by reflexivity.
  split; [exact H1|]. split; [exact H2|].
  destruct (X11_temporaries_used_are_declared Examples.callA Examples.fA
              (mkSimplifyCallExpr 1 1 false TransSuccess
                 (Some Examples.callA) (Some Examples.fA) 1%N []) H1 H2)
    as (Ops & Text & E1 & _ & E3 & _ & E5).
  exists Ops, Text. split; [exact E1|]. split; [exact E3|].
  exact (proj1 (proj2 E5)).
Defined.

(** X12: the rewrite touches only the rewriter and the name counter.  The
    counters of the base class, the mode, the error and the selection are
    as before; the edits made before are kept, in front of the new ones;
    the new edits are one declaration for each increment of the counter,
    followed by one replacement, so at most one declaration for each
    argument and one for the result. *)
Theorem X12_rewrite_only_appends_edits
    (CE : CallExpr) (FD : FunctionDecl) (s : SimplifyCallExpr) :
  let s' := replaceCallExpr CE FD s in
  TransformationCounter s' = TransformationCounter s /\
  ValidInstanceNum s' = ValidInstanceNum s /\
  QueryInstanceOnly s' = QueryInstanceOnly s /\
  TransError s' = TransError s /\
  TheCallExpr s' = TheCallExpr s /\
  CurrentFD s' = CurrentFD s /\
  exists Decls Text,
    TheRewriter s' =
      TheRewriter s ++ Decls ++
      [ReplaceText (rangeBegin (callRange CE)) (rangeSize (callRange CE)) Text] /\
    filter isReplace Decls = [] /\
    NamePostfix s' = uintAdvance (List.length Decls) (NamePostfix s) /\
    List.length Decls <= getNumArgs CE + 1.
Proof.
  cbv zeta. rewrite replaceCallExpr_edits.
  repeat (split; [reflexivity|]).
  exists (declsFrom FD (NamePostfix s) (rewrittenTypes CE)),
         (replacementText (NamePostfix s) CE).
  split; [reflexivity|].
  split; [apply declsFrom_no_replace|].
  split; [rewrite NamePostfix_advance, declsFrom_length; reflexivity|].
  rewrite declsFrom_length. apply countAggregates_rewrittenTypes_le.
Qed.

(** ** The run on programs without nested function declarations *)



(** ** Fresh names *)

(** Below the wrap, the counter seeded one past [Max] has the value
    [Max + 1 + k] after [k] increments. *)
Lemma uintAdvance_seed Max k :
  (Max + 1 + N.of_nat k < uintModulus)%N ->
  uintAdvance k (uintWrap (Max + 1)) = (Max + 1 + N.of_nat k)%N.
Proof.
  intro H. unfold uintWrap at 1. rewrite N.mod_small by lia.
  apply uintAdvance_no_wrap. exact H.
Qed.

(** X15: fresh names as long as the counter does not wrap.  When the
    largest postfix in use plus the number of names the rewrite of the
    selected call allocates (one for each struct or union type among the
    types of its arguments and its own type; none for a call without
    arguments) is below 2^32, the names declared are [tmp_var_] followed by
    [Max + 1], [Max + 2], ... in order: each reads back a postfix greater
    than every postfix in use, the names are pairwise distinct, and none is
    an identifier of the translation unit.  The counter ends one past the
    last postfix allocated, in [unsigned int] arithmetic. *)
Theorem X15_fresh_names_below_the_wrap
    (TU : TranslationUnit) (Counter : Z) (DiagError : bool) (CE : CallExpr) :
  (1 <= Counter)%Z ->
  nth_error (callsOf (visitsOfTU TU)) (Z.to_nat (Counter - 1)) = Some CE ->
  let Max := TransNameQueryWrap.getMaxNamePostfix (tuIdentifiers TU) in
  let Types :=
    match callArgs CE with
    | [] => []
    | _ :: _ => filter isAggregate (map exprType (callArgs CE) ++ [callType CE])
    end in
  (Max + N.of_nat (List.length Types) < uintModulus)%N ->
  let Names :=
    map (fun k => RewriteUtils.getTmpTransName (Max + 1 + N.of_nat k)%N)
        (seq 0 (List.length Types)) in
  exists FD s Text,
    run Counter false DiagError TU = Returned s /\
    TheCallExpr s = Some CE /\
    CurrentFD s = Some FD /\
    TheRewriter s =
      map (fun p => InsertText (rangeBegin (fdRange FD))
                      (typeSpelling (fst p) ++ " " ++ snd p ++ ";" ++ Str.nl)%string)
          (combine Types Names) ++
      [ReplaceText (rangeBegin (callRange CE)) (rangeSize (callRange CE)) Text] /\
    NamePostfix s = uintWrap (Max + 1 + N.of_nat (List.length Types)) /\
    Forall (fun Name => exists m, TransNameQueryWrap.postfixOf Name = Some m /\
                                  (Max < m)%N) Names /\
    NoDup Names /\
    Forall (fun Name => ~ In Name (tuIdentifiers TU)) Names.
Proof.
  intros Hpos Hnth Max Types Hbound Names.
  assert (Hin : (1 <= Counter <= totalCalls TU)%Z).
  { unfold totalCalls.
    assert (Z.to_nat (Counter - 1) < List.length (callsOf (visitsOfTU TU)))
      by (apply nth_error_Some; congruence).
    lia. }
  destruct (run_in_range Counter DiagError TU Hin)
    as (pre & CE' & post & FD & E & L & F & Hrun).
  assert (CE' = CE).
  { assert (Hn : Z.to_nat (Counter - 1) = List.length (callsOf pre)) by lia.
    rewrite Hn, E, nth_call in Hnth. congruence. }
  subst CE'. cbv zeta in Hrun.
  set (s0 := mkSimplifyCallExpr Counter (totalCalls TU) false TransSuccess
               (Some CE) (Some FD) (nameSeed (tuIdentifiers TU)) []) in Hrun.
  assert (HT : Types = filter isAggregate (rewrittenTypes CE))
    by (symmetry; apply aggregates_of_rewrittenTypes).
  assert (HN : Names = namesFrom (nameSeed (tuIdentifiers TU)) (rewrittenTypes CE)).
  { unfold Names. rewrite namesFrom_seq. unfold countAggregates. rewrite <- HT.
    apply map_ext_in. intros k Hk. apply in_seq in Hk.
    unfold nameSeed. fold Max. rewrite uintAdvance_seed by lia. reflexivity. }
  exists FD,
    (if DiagError then setTransError TransInternalError (replaceCallExpr CE FD s0)
     else replaceCallExpr CE FD s0),
    (replacementText (nameSeed (tuIdentifiers TU)) CE).
  split; [exact Hrun|].
  split; [rewrite replaceCallExpr_edits; destruct DiagError; reflexivity|].
  split; [rewrite replaceCallExpr_edits; destruct DiagError; reflexivity|].
  split.
  { rewrite rewriter_after_run, HN, HT, declsFrom_names. reflexivity. }
  split.
  { assert (HP : NamePostfix (if DiagError
                              then setTransError TransInternalError
                                     (replaceCallExpr CE FD s0)
                              else replaceCallExpr CE FD s0) =
                 NamePostfix (replaceCallExpr CE FD s0))
      by (destruct DiagError; reflexivity).
    rewrite HP, replaceCallExpr_edits, NamePostfix_advance.
    change (NamePostfix s0) with (uintWrap (Max + 1)).
    rewrite uintAdvance_mod by apply uintWrap_lt.
    unfold countAggregates. rewrite <- HT.
    unfold uintWrap. now rewrite N.Div0.add_mod_idemp_l. }
  assert (Hfresh : Forall (fun Name => exists m,
                             TransNameQueryWrap.postfixOf Name = Some m /\
                             (Max < m)%N) Names).
  { unfold Names. apply Forall_forall. intros Name HIn.
    apply in_map_iff in HIn. destruct HIn as (k & <- & _).
    eexists. split; [apply postfixOf_getTmpTransName|lia]. }
  split; [exact Hfresh|].
  split.
  { rewrite HN. apply namesFrom_NoDup; [apply uintWrap_lt|].
    unfold countAggregates. rewrite <- HT. lia. }
  rewrite Forall_forall in *. intros Name HIn HId.
  destruct (Hfresh Name HIn) as (m & Hm & Hlt).
  pose proof (getMaxNamePostfix_bound _ _ _ HId Hm) as Hb.
  fold Max in Hb. lia.
Qed.

Lemma X15_witness :
  (1 <= 1)%Z /\
  nth_error (callsOf (visitsOfTU Examples.tuA)) 0 = Some Examples.callA /\
  (TransNameQueryWrap.getMaxNamePostfix (tuIdentifiers Examples.tuA) + 1
   < uintModulus)%N /\
  exists FD s Text,
    run 1 false false Examples.tuA = Returned s /\
    TheCallExpr s = Some Examples.callA /\
    TheRewriter s =
      [InsertText (rangeBegin (fdRange FD)) ("struct Z tmp_var_1;" ++ Str.nl)%string;
       ReplaceText 75 10 Text] /\
    NamePostfix s = 2%N /\
    ~ In "tmp_var_1" (tuIdentifiers Examples.tuA).
Proof.
  assert (H1 : (1 <= 1)%Z) by lia.
  assert (H2 : nth_error (callsOf (visitsOfTU Examples.tuA)) (Z.to_nat (1 - 1)) =
               Some Examples.callA) by reflexivity.
  assert (H3 : (TransNameQueryWrap.getMaxNamePostfix (tuIdentifiers Examples.tuA) + 1
                < uintModulus)%N) by reflexivity.
  split; [exact H1|]. split; [exact H2|]. split; [exact H3|].
  destruct (X15_fresh_names_below_the_wrap Examples.tuA 1 false Examples.callA
              H1 H2 H3)
    as (FD & s & Text & E1 & E2 & _ & E4 & E5 & _ & _ & E8).
  exists FD, s, Text.
  split; [exact E1|]. split; [exact E2|]. split; [exact E4|]. split; [exact E5|].
  exact (Forall_inv E8).
Defined.
